(** * generate_assets.py: gradient canvases with outlined text labels

    A shallow embedding of the asset generator ([get_font], [hex_to_rgb],
    [create_gradient_background], [draw_text_with_outline],
    [create_app_icon], [create_adaptive_icon], [create_splash_screen] and
    [generate_all_assets]) together with the properties its specification
    states about the gradient renderer, the label compositor and font
    resolution, and further properties of the code.

    Conventions of the embedding.
    - Python [int] is [Z]; Python [str] is [string], a sequence of bytes: a
      character beyond ASCII is its UTF-8 bytes.
    - Python [float] is IEEE-754 binary64.  A finite float is represented by
      the rational number it denotes ([Binary64.float]); every arithmetic
      operation is the exact rational result rounded to nearest, ties to
      even ([Binary64.RN]).
    - A raised exception is a value of [exn]; a computation that may raise
      returns a [result].  Code that draws on the image threads the pixel
      grid through a state-and-exception monad [M]: the image is mutated in
      place, so what was drawn before an exception stays drawn.
    - Pillow's C layer holds sizes and coordinates in C [int]s; a
      coordinate passes through a C double on its way there ([coordinate]).
    - Pillow's text and font operations and the file-system probe are
      external; they are the fields of the class [Externals].  The console,
      the memory for images, saving and resizing are external too, and each
      may fail; they are the fields of the class [System], and the functions
      that print, allocate or save are computations [IO] on a [world]. *)

From Stdlib Require Import ZArith QArith Qround Qabs Qpower Lia Lqa Ascii String.
From stdpp Require Import list list_numbers strings.

(** ** Binary64 arithmetic *)

Module Binary64.
Local Open Scope Q_scope.

(** A finite binary64 value, as the rational it denotes. *)
Definition float : Type := Q.

Definition prec : Z := 53.
Definition emin : Z := -1074.

(** Exponent of the unit in the last place of a number of magnitude [e]
    (subnormal below [emin + prec]). *)
Definition fexp (e : Z) : Z := Z.max (e - prec) emin.

(** For [0 < x], the integer [e] with [2^(e-1) <= x < 2^e]. *)
Definition mag (x : Q) : Z :=
  let k := (Z.log2 (Qnum x) - Z.log2 (Zpos (Qden x)))%Z in
  if Qle_bool (2 ^ k) x then (k + 1)%Z else k.

(** Nearest integer, ties to even. *)
Definition rnd_even (x : Q) : Z :=
  let f := Qfloor x in
  match Qcompare (x - inject_Z f) (1 # 2) with
  | Lt => f
  | Gt => (f + 1)%Z
  | Eq => if Z.even f then f else (f + 1)%Z
  end.

(** Nearest multiple of [2^e], ties to even. *)
Definition round_at (e : Z) (x : Q) : Q :=
  inject_Z (rnd_even (x / 2 ^ e)) * 2 ^ e.

(** Round to nearest binary64, ties to even. *)
Definition RN (x : Q) : float :=
  match Qnum x with
  | Z0 => 0
  | Zpos _ => round_at (fexp (mag x)) x
  | Zneg _ => - round_at (fexp (mag (- x))) (- x)
  end.

Definition fadd (a b : float) : float := RN (a + b).
Definition fmul (a b : float) : float := RN (a * b).

(** Magnitudes from [2^1024 - 2^970] on round beyond the largest finite
    binary64. *)
Definition overflow_bound : Z := 2 ^ 1024 - 2 ^ 970.

End Binary64.

(** ** The Python runtime *)

Inductive exn : Type :=
  | ValueError
  | ZeroDivisionError
  | OverflowError
  | OSError
  | MemoryError
  | UnicodeEncodeError.

Inductive result (A : Type) : Type :=
  | Ok (a : A)
  | Raise (e : exn).
Arguments Ok {A} a.
Arguments Raise {A} e.

Definition bindR {A B} (r : result A) (k : A -> result B) : result B :=
  match r with
  | Ok a => k a
  | Raise e => Raise e
  end.

Notation "'let?' x := r 'in' k" := (bindR r (fun x => k))
  (at level 10, x pattern, r at level 100, k at level 200).

Local Open Scope Z_scope.

(** [float(n)] as performed by mixed int/float arithmetic. *)
Definition float_of_int (n : Z) : result Binary64.float :=
  if Binary64.overflow_bound <=? Z.abs n then Raise OverflowError
  else Ok (Binary64.RN (inject_Z n)).

(** [a / b] on two ints: the correctly rounded quotient. *)
Definition py_truediv (a b : Z) : result Binary64.float :=
  if b =? 0 then Raise ZeroDivisionError
  else if Binary64.overflow_bound * Z.abs b <=? Z.abs a then Raise OverflowError
  else Ok (Binary64.RN (inject_Z a / inject_Z b)).

(** [int(x)] on a float: truncation towards zero. *)
Definition py_int (x : Binary64.float) : Z :=
  if Qle_bool 0 x then Qfloor x else Qceiling x.

(** [n * x] and [n + x] with [n] an int and [x] a float. *)
Definition int_mul_float (n : Z) (x : Binary64.float) : result Binary64.float :=
  let? a := float_of_int n in Ok (Binary64.fmul a x).

Definition int_add_float (n : Z) (x : Binary64.float) : result Binary64.float :=
  let? a := float_of_int n in Ok (Binary64.fadd a x).

(** [range(a, b)]. *)
Definition py_range (a b : Z) : list Z := seqZ a (b - a).

(** [s.lstrip(ch)]. *)
Fixpoint lstrip (ch : ascii) (s : string) : string :=
  match s with
  | String c s' => if Ascii.eqb c ch then lstrip ch s' else s
  | EmptyString => EmptyString
  end.

(** *** [int(s, 16)] *)

Definition code (c : ascii) : Z := Z.of_nat (nat_of_ascii c).

Definition is_space (c : ascii) : bool :=
  ((9 <=? code c) && (code c <=? 13)) || (code c =? 32).

Definition digit_value (c : ascii) : option Z :=
  let n := code c in
  if (48 <=? n) && (n <=? 57) then Some (n - 48)
  else if (97 <=? n) && (n <=? 122) then Some (n - 87)
  else if (65 <=? n) && (n <=? 90) then Some (n - 55)
  else None.

Definition digit16 (c : ascii) : option Z :=
  match digit_value c with
  | Some d => if d <? 16 then Some d else None
  | None => None
  end.

Fixpoint skip_space (s : string) : string :=
  match s with
  | String c s' => if is_space c then skip_space s' else s
  | EmptyString => EmptyString
  end.

Definition parse_sign (s : string) : bool * string :=
  match s with
  | String c s' =>
      if Ascii.eqb c "+" then (false, s')
      else if Ascii.eqb c "-" then (true, s')
      else (false, s)
  | EmptyString => (false, s)
  end.

(** A [0x] or [0X] prefix, and one underscore after it, are skipped. *)
Definition skip_prefix16 (s : string) : string :=
  match s with
  | String c0 (String c1 s') =>
      if Ascii.eqb c0 "0" && (Ascii.eqb c1 "x" || Ascii.eqb c1 "X") then
        match s' with
        | String c2 s'' => if Ascii.eqb c2 "_" then s'' else s'
        | EmptyString => s'
        end
      else s
  | _ => s
  end.

(** Digits with single underscores between them; [None] on a doubled or
    trailing underscore.  Returns the value and the unread rest. *)
Fixpoint scan_digits (acc : Z) (prev_underscore : bool) (s : string)
  : option (Z * string) :=
  match s with
  | String c s' =>
      match digit16 c with
      | Some d => scan_digits (16 * acc + d) false s'
      | None =>
          if Ascii.eqb c "_" then
            if prev_underscore then None else scan_digits acc true s'
          else if prev_underscore then None else Some (acc, s)
      end
  | EmptyString => if prev_underscore then None else Some (acc, s)
  end.

Definition int16 (s : string) : result Z :=
  let '(negative, s1) := parse_sign (skip_space s) in
  let s2 := skip_prefix16 s1 in
  match s2 with
  | String c _ =>
      match digit16 c with
      | Some _ =>
          match scan_digits 0 false s2 with
          | Some (v, rest) =>
              match skip_space rest with
              | EmptyString => Ok (if negative then - v else v)
              | String _ _ => Raise ValueError
              end
          | None => Raise ValueError
          end
      | None => Raise ValueError
      end
  | EmptyString => Raise ValueError
  end.

(** ** The image *)

Definition rgb : Type := Z * Z * Z.

(** Rows of pixels, top row first. *)
Abbreviation canvas := (list (list rgb)).

Definition pixel (c : canvas) (x y : nat) : option rgb :=
  match c !! y with
  | Some row => row !! x
  | None => None
  end.

(** An image of [w] columns and [h] rows.  Pillow holds both numbers in a
    C [int]. *)
Definition has_size (w h : nat) (c : canvas) : Prop :=
  length c = h /\ Forall (fun row => length row = w) c /\
  Z.of_nat w < 2 ^ 31 /\ Z.of_nat h < 2 ^ 31.

(** A channel value is stored as a byte. *)
Definition clip8 (v : Z) : Z := Z.max 0 (Z.min 255 v).

Definition ink_of (color : rgb) : rgb :=
  let '(r, g, b) := color in (clip8 r, clip8 g, clip8 b).

Definition fill_span (lo hi : Z) (ink : rgb) (row : list rgb) : list rgb :=
  imap (fun i p => if (lo <=? Z.of_nat i) && (Z.of_nat i <=? hi) then ink else p) row.

(** The horizontal line of the C layer between the columns [x0] and [x1]
    of row [y]: every pixel of the segment, both end points included, that
    lies inside the image. *)
Definition draw_hline (c : canvas) (x0 x1 y : Z) (color : rgb) : canvas :=
  if y <? 0 then c
  else alter (fill_span (Z.min x0 x1) (Z.max x0 x1) (ink_of color)) (Z.to_nat y) c.

(** [(int)x] for a C double [x] whose integer part is [n].  Outside the
    range of [int] the conversion is undefined in C; the model takes what
    the conversion instruction of x86-64 returns there, [INT_MIN]. *)
Definition c_int (n : Z) : Z :=
  if (- 2 ^ 31 <=? n) && (n <? 2 ^ 31) then n else - 2 ^ 31.

(** A coordinate of [draw.line], given as a Python int: it is read as a C
    double, and a failure to do so is reported as [ValueError]; the double
    is then cast to [int]. *)
Definition coordinate (n : Z) : result Z :=
  match float_of_int n with
  | Ok x => Ok (c_int (py_int x))
  | Raise _ => Raise ValueError
  end.

(** ** Drawing computations *)

Definition M (A : Type) : Type := canvas -> canvas * result A.

Definition ret {A} (a : A) : M A := fun c => (c, Ok a).

Definition bindM {A B} (m : M A) (k : A -> M B) : M B :=
  fun c =>
    match m c with
    | (c', Ok a) => k a c'
    | (c', Raise e) => (c', Raise e)
    end.

Definition lift {A} (r : result A) : M A := fun c => (c, r).

Notation "'let*' x := m 'in' k" := (bindM m (fun x => k))
  (at level 10, x pattern, m at level 100, k at level 200).
Notation "m ;;; k" := (bindM m (fun _ => k))
  (at level 100, k at level 200, right associativity).

(** [try: body  except: handler] *)
Definition try_except {A} (body : M A) (handler : exn -> M A) : M A :=
  fun c =>
    match body c with
    | (c', Raise e) => handler e c'
    | (c', Ok a) => (c', Ok a)
    end.

(** [for a in l: body(a)] *)
Fixpoint for_each {A} (l : list A) (body : A -> M unit) : M unit :=
  match l with
  | [] => ret tt
  | a :: l' => body a ;;; for_each l' body
  end.

(** [draw.line([p0, p1], fill=color)] for two points of one row: all
    four coordinates are converted before anything is drawn. *)
Definition draw_line (p0 p1 : Z * Z) (color : rgb) : M unit :=
  let* x0 := lift (coordinate (fst p0)) in
  let* y0 := lift (coordinate (snd p0)) in
  let* x1 := lift (coordinate (fst p1)) in
  let* _ := lift (coordinate (snd p1)) in
  fun c => (draw_hline c x0 x1 y0 color, Ok tt).

(** ** External collaborators *)

Class Externals : Type := {
  font : Type;
  (** [os.path.exists] *)
  path_exists : string -> bool;
  (** [ImageFont.truetype(path, size)] *)
  truetype : string -> Z -> result font;
  (** [ImageFont.load_default()] *)
  load_default : font;
  (** [draw.textbbox(xy, text, font=font)] *)
  textbbox : Z * Z -> string -> font -> result (Z * Z * Z * Z);
  (** [draw.text(xy, text, font=font, fill=color)]: the image after the
      draw, or the exception raised, in which case nothing was drawn. *)
  text : canvas -> Z * Z -> string -> font -> rgb -> result canvas;
}.

Definition draw_text `{Externals} (xy : Z * Z) (s : string) (f : font) (color : rgb)
  : M unit :=
  fun c =>
    match text c xy s f color with
    | Ok c' => (c', Ok tt)
    | Raise e => (c, Raise e)
    end.

(** ** The program *)

Definition PRIMARY_BLUE : string := "#2E7CEE".
Definition DARK_BLUE : string := "#1E5BB8".
Definition LIGHT_BLUE : string := "#5BA3FF".
Definition WHITE : string := "#FFFFFF".
Definition GOLD : string := "#FFD700".

Definition font_options (bold : bool) : list (option string) :=
  [ Some (if bold then "/system/fonts/Roboto-Bold.ttf"
          else "/system/fonts/Roboto-Regular.ttf");
    Some (if bold then "/system/fonts/DroidSans-Bold.ttf"
          else "/system/fonts/DroidSans.ttf");
    Some (if bold then "/data/data/com.termux/files/usr/share/fonts/TTF/DejaVuSans-Bold.ttf"
          else "/data/data/com.termux/files/usr/share/fonts/TTF/DejaVuSans.ttf");
    None ].

(** Truth value of [font_path] in [if font_path and ...]. *)
Definition truthy (font_path : option string) : bool :=
  match font_path with
  | Some (String _ _) => true
  | _ => false
  end.

(** The loop of [get_font]: [Some f] when an iteration returns [f], [None]
    when the loop runs to its end. *)
Fixpoint get_font_loop `{Externals} (options : list (option string)) (size : Z)
  : option font :=
  match options with
  | [] => None
  | font_path :: rest =>
      match font_path with
      | Some p =>
          if truthy font_path && path_exists p then
            match truetype p size with
            | Ok f => Some f
            | Raise _ => get_font_loop rest size
            end
          else get_font_loop rest size
      | None => get_font_loop rest size
      end
  end.

Definition get_font `{Externals} (size : Z) (bold : bool) : result font :=
  match get_font_loop (font_options bold) size with
  | Some f => Ok f
  | None => Ok load_default
  end.

Definition hex_to_rgb (hex_color : string) : result rgb :=
  let hex_color := lstrip "#" hex_color in
  let? r := int16 (substring 0 2 hex_color) in
  let? g := int16 (substring 2 2 hex_color) in
  let? b := int16 (substring 4 2 hex_color) in
  Ok (r, g, b).

(** [int(c1 + (c2 - c1) * ratio)] *)
Definition channel (c1 c2 : Z) (ratio : Binary64.float) : result Z :=
  let? p := int_mul_float (c2 - c1) ratio in
  let? s := int_add_float c1 p in
  Ok (py_int s).

Definition create_gradient_background (width height : Z)
    (color_top color_bottom : string) : M unit :=
  let* (r1, g1, b1) := lift (hex_to_rgb color_top) in
  let* (r2, g2, b2) := lift (hex_to_rgb color_bottom) in
  for_each (py_range 0 height) (fun y =>
    let* ratio := lift (py_truediv y height) in
    let* r := lift (channel r1 r2 ratio) in
    let* g := lift (channel g1 g2 ratio) in
    let* b := lift (channel b1 b2 ratio) in
    draw_line (0, y) (width, y) (r, g, b)).

Definition draw_text_with_outline `{Externals} (position : Z * Z) (s : string)
    (f : font) (fill_color outline_color : string) (outline_width : Z) : M unit :=
  let '(x, y) := position in
  for_each (py_range (- outline_width) (outline_width + 1)) (fun adj_x =>
    for_each (py_range (- outline_width) (outline_width + 1)) (fun adj_y =>
      if negb (adj_x =? 0) || negb (adj_y =? 0) then
        let* ink := lift (hex_to_rgb outline_color) in
        draw_text (x + adj_x, y + adj_y) s f ink
      else ret tt)) ;;;
  let* ink := lift (hex_to_rgb fill_color) in
  draw_text (x, y) s f ink.

(** [int(size * k)] for a float literal [k]. *)
Definition scaled (size : Z) (k : Q) : result Z :=
  let? p := int_mul_float size (Binary64.RN k) in Ok (py_int p).

(** The body of every [try] block that stamps a label in
    [create_app_icon], [create_adaptive_icon] and [create_splash_screen]:
    measure the text, place it, stamp it. *)
Definition label_body `{Externals} (place : Z * Z * Z * Z -> result (Z * Z))
    (s : string) (f : font) (fill_color outline_color : string)
    (outline_width : Z) : M unit :=
  let* bbox := lift (textbbox (0, 0) s f) in
  let* position := lift (place bbox) in
  draw_text_with_outline position s f fill_color outline_color outline_width.

(** [try: body  except: pass]: any exception raised on the way ends the
    block and is dropped. *)
Definition label_block `{Externals} (place : Z * Z * Z * Z -> result (Z * Z))
    (s : string) (f : font) (fill_color outline_color : string)
    (outline_width : Z) : M unit :=
  try_except
    (label_body place s f fill_color outline_color outline_width)
    (fun _ => ret tt).

(** ** The console, the files and the memory *)

(** The text of one [print] statement: literal text, and the ints and
    exceptions formatted into it. *)
Inductive piece : Type :=
  | Str (s : string)
  | Int (n : Z)
  | Exc (e : exn).

(** What the program writes to the console: the text of a [print], or the
    traceback of the exception being handled. *)
Inductive output : Type :=
  | Printed (text : list piece)
  | Traceback (e : exn).

(** The state outside the program: the writes to the console that
    completed and the saves that completed, oldest first. *)
Record world : Type := {
  console : list output;
  files : list (string * canvas);
}.

Class System : Type := {
  (** [Image.new] on a size that fits the C layer: the exception it
      raises, if any, for want of memory. *)
  alloc_error : world -> Z -> Z -> option exn;
  (** A [print] statement or [traceback.print_exc()]: the exception raised
      while the text is formatted or written, if any. *)
  write_error : world -> output -> option exn;
  (** [image.save(path, 'PNG', optimize=True)]: the exception it raises,
      if any. *)
  save_error : world -> string -> canvas -> option exn;
  (** [image.resize(size, Image.Resampling.LANCZOS)] *)
  resize : canvas -> Z * Z -> result canvas;
}.

(** Computations on the world, with exceptions. *)
Definition IO (A : Type) : Type := world -> world * result A.

Definition retIO {A} (a : A) : IO A := fun k => (k, Ok a).

Definition bindIO {A B} (m : IO A) (k : A -> IO B) : IO B :=
  fun d =>
    match m d with
    | (d', Ok a) => k a d'
    | (d', Raise e) => (d', Raise e)
    end.

Definition liftIO {A} (r : result A) : IO A := fun d => (d, r).

Notation "'let!' x := m 'in' k" := (bindIO m (fun x => k))
  (at level 10, x pattern, m at level 100, k at level 200).

(** [try: body  except Exception as e: handler] *)
Definition try_exceptIO {A} (body : IO A) (handler : exn -> IO A) : IO A :=
  fun d =>
    match body d with
    | (d', Raise e) => handler e d'
    | (d', Ok a) => (d', Ok a)
    end.

(** The world after a write to the console, and after a save. *)
Definition written (o : output) (d : world) : world :=
  {| console := console d ++ [o]; files := files d |}.

Definition saved (path : string) (img : canvas) (d : world) : world :=
  {| console := console d; files := files d ++ [(path, img)] |}.

Definition emit `{System} (o : output) : IO unit :=
  fun d =>
    match write_error d o with
    | None => (written o d, Ok tt)
    | Some e => (d, Raise e)
    end.

Definition print `{System} (text : list piece) : IO unit := emit (Printed text).

Definition save `{System} (img : canvas) (path : string) : IO unit :=
  fun d =>
    match save_error d path img with
    | None => (saved path img d, Ok tt)
    | Some e => (d, Raise e)
    end.

(** [Image.new('RGB', (w, h), color)]: a negative size is refused, a size
    beyond the C [int] cannot be passed on, and the image may not fit in
    memory. *)
Definition image_new `{System} (w h : Z) (color : rgb) : IO canvas :=
  fun d =>
    if (w <? 0) || (h <? 0) then (d, Raise ValueError)
    else if (2 ^ 31 <=? w) || (2 ^ 31 <=? h) then (d, Raise OverflowError)
    else
      match alloc_error d w h with
      | Some e => (d, Raise e)
      | None => (d, Ok (replicate (Z.to_nat h) (replicate (Z.to_nat w) (ink_of color))))
      end.

(** A drawing computation run on the image [img]: the image after it and
    its value; an exception leaves the function, and the image with it. *)
Definition draw_on {A} (img : canvas) (m : M A) : IO (canvas * A) :=
  fun d =>
    match m img with
    | (img', Ok a) => (d, Ok (img', a))
    | (_, Raise e) => (d, Raise e)
    end.

(** [s * n] on a string. *)
Fixpoint str_mul (s : string) (n : nat) : string :=
  match n with
  | O => EmptyString
  | S n' => String.append s (str_mul s n')
  end.

(** The line feed, [\n]. *)
Definition nl : string := String "010" EmptyString.

(** ** The three images and the four files *)

Definition create_app_icon `{Externals} `{System} (size : Z) : IO canvas :=
  let! _ := print [Str "  Creating app icon ("; Int size; Str "x"; Int size; Str ")..."] in
  let! background := liftIO (hex_to_rgb PRIMARY_BLUE) in
  let! icon := image_new size size background in
  let! (icon, failure) :=
    draw_on icon
      (create_gradient_background size size LIGHT_BLUE DARK_BLUE ;;;
       let* size_rx := lift (scaled size (1 # 2)) in
       let* font_rx := lift (get_font size_rx true) in
       try_except
         (label_body
            (fun '(b0, b1, b2, b3) =>
               let text_width := b2 - b0 in
               let text_height := b3 - b1 in
               let x := (size - text_width) / 2 in
               let? lift_up := scaled size (1 # 20) in
               Ok (x, (size - text_height) / 2 - lift_up))
            "Rx" font_rx WHITE DARK_BLUE 4 ;;;
          ret None)
         (fun e => ret (Some e))) in
  let! _ :=
    match failure with
    | Some e => print [Str "    Note: Using default font - "; Exc e]
    | None => retIO tt
    end in
  let! (icon, _) :=
    draw_on icon
      (let* size_app := lift (scaled size (1 # 10)) in
       let* font_app := lift (get_font size_app true) in
       label_block
         (fun '(b0, b1, b2, b3) =>
            let text_width := b2 - b0 in
            let x := (size - text_width) / 2 in
            let? y := scaled size (15 # 100) in
            Ok (x, y))
         "UWtopia" font_app WHITE DARK_BLUE 2 ;;;
       let* size_credit := lift (scaled size (55 # 1000)) in
       let* font_credit := lift (get_font size_credit false) in
       label_block
         (fun '(b0, b1, b2, b3) =>
            let text_width := b2 - b0 in
            let x := (size - text_width) / 2 in
            let? y := scaled size (85 # 100) in
            Ok (x, y))
         "@DrEndris" font_credit GOLD DARK_BLUE 2) in
  retIO icon.

Definition create_adaptive_icon `{Externals} `{System} (size : Z) : IO canvas :=
  let! _ := print [Str "  Creating adaptive icon ("; Int size; Str "x"; Int size; Str ")..."] in
  let! background := liftIO (hex_to_rgb WHITE) in
  let! icon := image_new size size background in
  let! (icon, _) :=
    draw_on icon
      (create_gradient_background size size WHITE LIGHT_BLUE ;;;
       let* size_rx := lift (scaled size (55 # 100)) in
       let* font_rx := lift (get_font size_rx true) in
       label_block
         (fun '(b0, b1, b2, b3) =>
            let text_width := b2 - b0 in
            let text_height := b3 - b1 in
            let x := (size - text_width) / 2 in
            let? lift_up := scaled size (8 # 100) in
            Ok (x, (size - text_height) / 2 - lift_up))
         "Rx" font_rx PRIMARY_BLUE WHITE 3 ;;;
       let* size_app := lift (scaled size (8 # 100)) in
       let* font_app := lift (get_font size_app true) in
       label_block
         (fun '(b0, b1, b2, b3) =>
            let text_width := b2 - b0 in
            let x := (size - text_width) / 2 in
            let? y := scaled size (65 # 100) in
            Ok (x, y))
         "UWtopia" font_app PRIMARY_BLUE WHITE 2) in
  retIO icon.

Definition create_splash_screen `{Externals} `{System} (width height : Z) : IO canvas :=
  let! _ := print [Str "  Creating splash screen ("; Int width; Str "x"; Int height;
                   Str ")..."] in
  let! background := liftIO (hex_to_rgb PRIMARY_BLUE) in
  let! splash := image_new width height background in
  let! (splash, _) :=
    draw_on splash
      (create_gradient_background width height LIGHT_BLUE DARK_BLUE ;;;
       let* size_rx := lift (scaled width (1 # 2)) in
       let* font_rx := lift (get_font size_rx true) in
       label_block
         (fun '(b0, b1, b2, b3) =>
            let text_width := b2 - b0 in
            let text_height := b3 - b1 in
            let x := (width - text_width) / 2 in
            let? lift_up := scaled height (1 # 10) in
            Ok (x, (height - text_height) / 2 - lift_up))
         "Rx" font_rx WHITE DARK_BLUE 5 ;;;
       let* size_title := lift (scaled width (12 # 100)) in
       let* font_title := lift (get_font size_title true) in
       label_block
         (fun '(b0, b1, b2, b3) =>
            let text_width := b2 - b0 in
            let x := (width - text_width) / 2 in
            let? y := scaled height (15 # 100) in
            Ok (x, y))
         "UWtopia Rx" font_title WHITE DARK_BLUE 3 ;;;
       let* size_subtitle := lift (scaled width (6 # 100)) in
       let* font_subtitle := lift (get_font size_subtitle false) in
       label_block
         (fun '(b0, b1, b2, b3) =>
            let text_width := b2 - b0 in
            let x := (width - text_width) / 2 in
            let? y := scaled height (24 # 100) in
            Ok (x, y))
         "Medical Question Bank" font_subtitle WHITE DARK_BLUE 2 ;;;
       let* size_credit := lift (scaled width (55 # 1000)) in
       let* font_credit := lift (get_font size_credit false) in
       label_block
         (fun '(b0, b1, b2, b3) =>
            let text_width := b2 - b0 in
            let x := (width - text_width) / 2 in
            let? y := scaled height (88 # 100) in
            Ok (x, y))
         "by @DrEndris" font_credit GOLD DARK_BLUE 2) in
  retIO splash.

Definition generate_all_assets `{Externals} `{System} : IO bool :=
  let! _ := print [Str (String.append nl (str_mul "=" 60))] in
  let! _ := print [Str "UWtopia Rx - Modern Blue Asset Generator"] in
  let! _ := print [Str "Creating UWorld-style professional assets..."] in
  let! _ := print [Str (String.append (str_mul "=" 60) nl)] in
  try_exceptIO
   (let! _ := print [Str "📱 Generating App Icon:"] in
    let! icon := create_app_icon 1024 in
    let! _ := save icon "assets/icon.png" in
    let! _ := print [Str "    ✓ Saved: assets/icon.png (1024x1024)"] in
    let! _ := print [Str (String.append nl "📱 Generating Adaptive Icon:")] in
    let! adaptive := create_adaptive_icon 1024 in
    let! _ := save adaptive "assets/adaptive-icon.png" in
    let! _ := print [Str "    ✓ Saved: assets/adaptive-icon.png (1024x1024)"] in
    let! _ := print [Str (String.append nl "🖼️  Generating Splash Screen:")] in
    let! splash := create_splash_screen 1284 2778 in
    let! _ := save splash "assets/splash.png" in
    let! _ := print [Str "    ✓ Saved: assets/splash.png (1284x2778)"] in
    let! _ := print [Str (String.append nl "🌐 Generating Favicon:")] in
    let! favicon := liftIO (resize icon (48, 48)) in
    let! _ := save favicon "assets/favicon.png" in
    let! _ := print [Str "    ✓ Saved: assets/favicon.png (48x48)"] in
    let! _ := print [Str (String.append nl (str_mul "=" 60))] in
    let! _ := print [Str "✅ All assets generated successfully!"] in
    let! _ := print [Str (str_mul "=" 60)] in
    let! _ := print [Str (String.append nl "Design Style:")] in
    let! _ := print [Str "  • Modern clean 'Rx' text design"] in
    let! _ := print [Str "  • UWorld-inspired blue theme"] in
    let! _ := print [Str "  • Professional medical aesthetic"] in
    let! _ := print [Str "  • Clear 'UWtopia' branding"] in
    let! _ := print [Str "  • '@DrEndris' author credit"] in
    let! _ := print [Str (String.append nl (String.append (str_mul "=" 60) nl))] in
    retIO true)
   (fun e =>
      let! _ := print [Str (String.append nl "❌ ERROR generating assets: "); Exc e] in
      let! _ := emit (Traceback e) in
      retIO false).

(** * The vocabulary of the specification *)

(** ** Colors *)

(** The value of a hexadecimal digit, by its position among the digits. *)
Fixpoint index_of (c : ascii) (s : string) : option Z :=
  match s with
  | EmptyString => None
  | String d s' => if Ascii.eqb c d then Some 0 else Z.succ <$> index_of c s'
  end.

Definition hex_value (c : ascii) : option Z :=
  match index_of c "0123456789abcdef" with
  | Some v => Some v
  | None => index_of c "0123456789ABCDEF"
  end.

Definition byte_of (hi lo : ascii) : option Z :=
  match hex_value hi, hex_value lo with
  | Some a, Some b => Some (16 * a + b)
  | _, _ => None
  end.

(** A valid color: exactly six hexadecimal digits, optionally preceded by
    one [#]; its value is the three bytes the digit pairs denote. *)
Definition color_value (s : string) : option rgb :=
  let digits :=
    match s with
    | String c s' => if Ascii.eqb c "#" then s' else s
    | EmptyString => s
    end in
  match digits with
  | String d1 (String d2 (String d3 (String d4 (String d5 (String d6 EmptyString))))) =>
      match byte_of d1 d2, byte_of d3 d4, byte_of d5 d6 with
      | Some r, Some g, Some b => Some (r, g, b)
      | _, _, _ => None
      end
  | _ => None
  end.

Definition is_byte (v : Z) : Prop := 0 <= v <= 255.

Definition is_color (c : rgb) : Prop :=
  let '(r, g, b) := c in is_byte r /\ is_byte g /\ is_byte b.

Inductive channel_id : Type := Red | Green | Blue.

Definition get (ch : channel_id) (p : rgb) : Z :=
  let '(r, g, b) := p in
  match ch with Red => r | Green => g | Blue => b end.

(** ** The gradient *)

(** One channel of the gradient at a given ratio, and at row [y] of [h]:
    the value of [int(c1 + (c2 - c1) * ratio)] with [ratio = y / h], in
    binary64 as the code computes it. *)
Definition lerp_at (c1 c2 : Z) (ratio : Binary64.float) : Z :=
  py_int (Binary64.fadd (Binary64.RN (inject_Z c1))
            (Binary64.fmul (Binary64.RN (inject_Z (c2 - c1))) ratio)).

Definition lerp (c1 c2 y h : Z) : Z :=
  lerp_at c1 c2 (Binary64.RN (inject_Z y / inject_Z h)).

(** The interpolation in exact arithmetic, truncated:
    [(c1*h + (c2 - c1)*y) div h].  The binary64 evaluation of the code
    yields this value or the one below it ([lerp_near_exact]). *)
Definition exact_lerp (c1 c2 y h : Z) : Z := (c1 * h + (c2 - c1) * y) / h.

(** The color of row [y] of a gradient of [h] rows. *)
Definition row_color (top bottom : rgb) (y h : Z) : rgb :=
  let '(r1, g1, b1) := top in
  let '(r2, g2, b2) := bottom in
  (lerp r1 r2 y h, lerp g1 g2 y h, lerp b1 b2 y h).

(** The image after the gradient loop: in every row below [height] that
    the C layer can address, the pixels between the two end points of the
    line take the row's color. *)
Definition gradient_canvas (width height : Z) (top bottom : rgb) (c : canvas) : canvas :=
  imap (fun j row =>
          if (Z.of_nat j <? height) && (Z.of_nat j <? 2 ^ 31)
          then fill_span (Z.min 0 (c_int width)) (Z.max 0 (c_int width))
                 (ink_of (row_color top bottom (Z.of_nat j) height)) row
          else row) c.

(** ** Labels and fonts *)

(** The offsets of the halo: the square of radius [w] around the anchor,
    the anchor itself left out, column by column. *)
Definition halo_offsets (w : Z) : list (Z * Z) :=
  filter (fun d => d <> (0, 0))
         (cprod (py_range (- w) (w + 1)) (py_range (- w) (w + 1))).

(** One halo draw: the outline color is parsed at each draw. *)
Definition halo_draw `{Externals} (x y : Z) (s : string) (f : font)
    (outline_color : string) (d : Z * Z) : M unit :=
  let* ink := lift (hex_to_rgb outline_color) in
  draw_text (x + d.1, y + d.2) s f ink.

(** The font cannot render the text: measuring it raises, or every
    attempt to draw it raises. *)
Definition cannot_render `{Externals} (s : string) (f : font) : Prop :=
  (exists e, textbbox (0, 0) s f = Raise e) \/
  (forall c xy ink, exists e, text c xy s f ink = Raise e).

(** The candidate paths of [get_font], and what one candidate yields. *)
Definition font_paths (bold : bool) : list string :=
  if bold then
    [ "/system/fonts/Roboto-Bold.ttf"; "/system/fonts/DroidSans-Bold.ttf";
      "/data/data/com.termux/files/usr/share/fonts/TTF/DejaVuSans-Bold.ttf" ]
  else
    [ "/system/fonts/Roboto-Regular.ttf"; "/system/fonts/DroidSans.ttf";
      "/data/data/com.termux/files/usr/share/fonts/TTF/DejaVuSans.ttf" ].

Definition usable `{Externals} (size : Z) (p : string) : option font :=
  if path_exists p then
    match truetype p size with
    | Ok f => Some f
    | Raise _ => None
    end
  else None.

(** A drawing computation that keeps the dimensions of the image, and
    the same for the text draws of the collaborators. *)
Definition keeps_size {A} (m : M A) : Prop :=
  forall w h c, has_size w h c -> has_size w h (m c).1.

Definition text_keeps_size `{Externals} : Prop :=
  forall c xy s f ink c' w h,
    text c xy s f ink = Ok c' -> has_size w h c -> has_size w h c'.

(** The files of [generate_all_assets], in the order it writes them. *)
Definition asset_paths : list string :=
  [ "assets/icon.png"; "assets/adaptive-icon.png"; "assets/splash.png";
    "assets/favicon.png" ].

(** The console takes every text; there is memory for an image of the
    given size; every save goes through. *)
Definition prints_succeed `{System} : Prop := forall d o, write_error d o = None.

Definition memory_for `{System} (w h : Z) : Prop := forall d, alloc_error d w h = None.

Definition saves_succeed `{System} : Prop := forall d path img, save_error d path img = None.

(** A computation that saves files of the paths [l], one after the other,
    as far as it gets: the paths of what it has saved when it ends are a
    first part of [l], and the whole of [l] when it returns a value that
    satisfies [Q]. *)
Definition saves_in_order {A} (l : list string) (Q : A -> Prop) (m : IO A) : Prop :=
  forall d, exists written,
    files (m d).1 = files d ++ written /\
    written.*1 `prefix_of` l /\
    (forall a, (m d).2 = Ok a -> Q a -> written.*1 = l).

(** ** Collaborators for running the model *)

(** No font file exists, a text measures eight pixels a character, and
    drawing a text sets the one pixel at its anchor; the empty text cannot
    be measured or drawn. *)
Definition anchor_text (c : canvas) (xy : Z * Z) (s : string) (f : unit) (ink : rgb)
  : result canvas :=
  match s with
  | EmptyString => Raise ValueError
  | String _ _ => Ok (draw_hline c xy.1 xy.1 xy.2 ink)
  end.

Definition anchor_bbox (xy : Z * Z) (s : string) (f : unit) : result (Z * Z * Z * Z) :=
  match s with
  | EmptyString => Raise ValueError
  | String _ _ => Ok (xy.1, xy.2, xy.1 + 8 * Z.of_nat (String.length s), xy.2 + 10)
  end.

Definition anchor_world : Externals :=
  {| font := unit;
     path_exists := fun _ => false;
     truetype := fun _ _ => Raise OSError;
     load_default := tt;
     textbbox := anchor_bbox;
     text := anchor_text |}.

Definition blank (w h : nat) (p : rgb) : canvas := replicate h (replicate w p).

(** Collaborators that can neither load, measure nor draw anything. *)
Definition blind_world : Externals :=
  {| font := unit;
     path_exists := fun _ => true;
     truetype := fun _ _ => Raise OSError;
     load_default := tt;
     textbbox := fun _ _ _ => Raise OSError;
     text := fun _ _ _ _ _ => Raise OSError |}.

(** Memory for every image, a console and a disk that take everything,
    and a resize that returns a black image of the requested size. *)
Definition plain_resize (img : canvas) (size : Z * Z) : result canvas :=
  Ok (blank (Z.to_nat size.1) (Z.to_nat size.2) (0, 0, 0)).

Definition open_system : System :=
  {| alloc_error := fun _ _ _ => None;
     write_error := fun _ _ => None;
     save_error := fun _ _ _ => None;
     resize := plain_resize |}.

(** The same with a console that cannot encode characters beyond ASCII:
    printing such a text raises [UnicodeEncodeError]. *)
Definition ascii_only (s : string) : bool :=
  forallb (fun ch => code ch <? 128) (list_ascii_of_string s).

Definition encodable (o : output) : bool :=
  match o with
  | Printed text =>
      forallb (fun part => match part with Str s => ascii_only s | _ => true end) text
  | Traceback _ => true
  end.

Definition ascii_system : System :=
  {| alloc_error := fun _ _ _ => None;
     write_error := fun _ o => if encodable o then None else Some UnicodeEncodeError;
     save_error := fun _ _ _ => None;
     resize := plain_resize |}.

Definition fresh_world : world := {| console := []; files := [] |}.

(** * Properties *)

(** ** Rounding to binary64 *)

Module Binary64Facts.
Import Binary64.
Local Open Scope Q_scope.

Lemma pow2_pos e : 0 < 2 ^ e.
Proof. apply Qpower_0_lt. reflexivity. Qed.

Lemma pow2_add a b : 2 ^ (a + b) == 2 ^ a * 2 ^ b.
Proof. apply Qpower_plus. discriminate. Qed.

Lemma pow2_le a b : (a <= b)%Z -> 2 ^ a <= 2 ^ b.
Proof. intros H. apply Qpower_le_compat_l; [exact H | discriminate]. Qed.

Lemma pow2_lt_inv a b : 2 ^ a < 2 ^ b -> (a < b)%Z.
Proof. intros H. apply (Qpower_lt_compat_l_inv 2); [exact H | reflexivity]. Qed.

Lemma pow2_Z j : (0 <= j)%Z -> 2 ^ j == inject_Z (2 ^ j).
Proof. intros H. symmetry. apply (Zpower_Qpower 2 j H). Qed.

Lemma log2_bounds_Q n : (0 < n)%Z ->
  2 ^ Z.log2 n <= inject_Z n /\ inject_Z n < 2 ^ (Z.log2 n + 1).
Proof.
  intros Hn. destruct (Z.log2_spec n Hn) as [Hlo Hhi].
  pose proof (Z.log2_nonneg n) as H0.
  rewrite !pow2_Z by lia. split.
  - rewrite <- Zle_Qle. exact Hlo.
  - rewrite <- Zlt_Qlt. replace (Z.log2 n + 1)%Z with (Z.succ (Z.log2 n)) by lia. exact Hhi.
Qed.

Lemma mag_spec x : 0 < x -> 2 ^ (mag x - 1) <= x /\ x < 2 ^ (mag x).
Proof.
  intros Hx. unfold mag.
  set (ln := Z.log2 (Qnum x)). set (ld := Z.log2 (Z.pos (Qden x))).
  assert (Hn : (0 < Qnum x)%Z).
  { destruct x as [n d]. unfold Qlt in Hx. simpl in *. lia. }
  destruct (log2_bounds_Q (Qnum x) Hn) as [Hn1 Hn2].
  destruct (log2_bounds_Q (Z.pos (Qden x)) eq_refl) as [Hd1 Hd2].
  fold ln in Hn1, Hn2. fold ld in Hd1, Hd2.
  assert (Hxd : x * inject_Z (Z.pos (Qden x)) == inject_Z (Qnum x)).
  { destruct x as [n d]. unfold Qeq, Qmult, inject_Z. simpl. lia. }
  assert (Hup : x < 2 ^ (ln - ld + 1)).
  { apply (Qmult_lt_r _ _ (2 ^ ld) (pow2_pos ld)).
    rewrite <- pow2_add. replace (ln - ld + 1 + ld)%Z with (ln + 1)%Z by lia.
    apply Qle_lt_trans with (inject_Z (Qnum x)); [|exact Hn2].
    rewrite <- Hxd. apply Qmult_le_l; [exact Hx | exact Hd1]. }
  assert (Hlow : 2 ^ (ln - ld - 1) <= x).
  { apply (Qmult_le_r _ _ (2 ^ (ld + 1)) (pow2_pos _)).
    rewrite <- pow2_add. replace (ln - ld - 1 + (ld + 1))%Z with ln by lia.
    apply Qle_trans with (inject_Z (Qnum x)); [exact Hn1|].
    rewrite <- Hxd. apply Qmult_le_l; [exact Hx | apply Qlt_le_weak; exact Hd2]. }
  destruct (Qle_bool (2 ^ (ln - ld)) x) eqn:Ht.
  - apply Qle_bool_iff in Ht. split; [|exact Hup].
    replace (ln - ld + 1 - 1)%Z with (ln - ld)%Z by lia. exact Ht.
  - split; [exact Hlow|]. apply Qnot_le_lt. intros Hc.
    apply Qle_bool_iff in Hc. congruence.
Qed.

Lemma mag_mono x y : 0 < x -> x <= y -> (mag x <= mag y)%Z.
Proof.
  intros Hx Hxy.
  destruct (mag_spec x Hx) as [Hx1 _].
  destruct (mag_spec y (Qlt_le_trans _ _ _ Hx Hxy)) as [_ Hy2].
  assert (H : 2 ^ (mag x - 1) < 2 ^ mag y) by lra.
  apply pow2_lt_inv in H. lia.
Qed.

Lemma rnd_even_bounds x : (Qfloor x <= rnd_even x <= Qfloor x + 1)%Z.
Proof.
  unfold rnd_even. destruct (Qcompare _ _); [destruct (Z.even _)| |]; lia.
Qed.

Lemma rnd_even_mono x y : x <= y -> (rnd_even x <= rnd_even y)%Z.
Proof.
  intros Hxy. pose proof (Qfloor_resp_le x y Hxy) as Hf.
  destruct (Z.eq_dec (Qfloor x) (Qfloor y)) as [E|NE].
  - unfold rnd_even. rewrite <- E.
    destruct (Qcompare_spec (x - inject_Z (Qfloor x)) (1 # 2)) as [H1|H1|H1];
    destruct (Qcompare_spec (y - inject_Z (Qfloor x)) (1 # 2)) as [H2|H2|H2];
    try destruct (Z.even (Qfloor x)); try lia; exfalso; lra.
  - pose proof (rnd_even_bounds x). pose proof (rnd_even_bounds y). lia.
Qed.

Lemma rnd_even_comp x y : x == y -> rnd_even x = rnd_even y.
Proof.
  intros E. apply Z.le_antisymm; apply rnd_even_mono; rewrite E; apply Qle_refl.
Qed.

Lemma rnd_even_Z k : rnd_even (inject_Z k) = k.
Proof.
  unfold rnd_even. rewrite Qfloor_Z.
  destruct (Qcompare_spec (inject_Z k - inject_Z k) (1 # 2)) as [H|H|H];
    [exfalso; lra | reflexivity | exfalso; lra].
Qed.

Lemma round_at_mono e x y : x <= y -> round_at e x <= round_at e y.
Proof.
  intros H. unfold round_at.
  apply Qmult_le_compat_r; [|apply Qlt_le_weak, pow2_pos].
  rewrite <- Zle_Qle. apply rnd_even_mono.
  apply Qmult_le_compat_r; [exact H|].
  apply Qlt_le_weak, Qinv_lt_0_compat, pow2_pos.
Qed.

#[global] Instance round_at_comp e : Proper (Qeq ==> Qeq) (round_at e).
Proof.
  intros x y E. apply Qle_antisym; apply round_at_mono; rewrite E; apply Qle_refl.
Qed.

Lemma round_at_multiple e k : round_at e (inject_Z k * 2 ^ e) == inject_Z k * 2 ^ e.
Proof.
  unfold round_at.
  rewrite (rnd_even_comp (inject_Z k * 2 ^ e / 2 ^ e) (inject_Z k)).
  - rewrite rnd_even_Z. reflexivity.
  - field. pose proof (pow2_pos e). lra.
Qed.

Lemma round_at_pow2 e j : (e <= j)%Z -> round_at e (2 ^ j) == 2 ^ j.
Proof.
  intros H.
  assert (E : 2 ^ j == inject_Z (2 ^ (j - e)) * 2 ^ e).
  { rewrite <- pow2_Z by lia. rewrite <- pow2_add. replace (j - e + e)%Z with j by lia. reflexivity. }
  unfold round_at at 1.
  rewrite (rnd_even_comp (2 ^ j / 2 ^ e) (inject_Z (2 ^ (j - e)))).
  - rewrite rnd_even_Z. symmetry. exact E.
  - rewrite E. field. pose proof (pow2_pos e). lra.
Qed.

Lemma RN_pos x : 0 < x -> RN x = round_at (fexp (mag x)) x.
Proof.
  destruct x as [[|p|p] d]; unfold Qlt; simpl; intros H; try lia. reflexivity.
Qed.

Lemma RN_zero x : x == 0 -> RN x = 0.
Proof.
  destruct x as [[|p|p] d]; unfold Qeq; simpl; intros H; try lia. reflexivity.
Qed.

Lemma RN_opp x : RN (- x) == - RN x.
Proof.
  destruct x as [[|p|p] d]; unfold RN; simpl.
  - reflexivity.
  - reflexivity.
  - rewrite Qopp_involutive. reflexivity.
Qed.

Lemma round_at_nonneg e x : 0 <= x -> 0 <= round_at e x.
Proof.
  intros H. apply Qle_trans with (round_at e (inject_Z 0 * 2 ^ e)).
  - rewrite round_at_multiple. change (inject_Z 0) with 0. lra.
  - apply round_at_mono. change (inject_Z 0) with 0. lra.
Qed.

Lemma RN_nonneg x : 0 <= x -> 0 <= RN x.
Proof.
  intros H. destruct (Qlt_le_dec 0 x) as [Hp|Hn].
  - rewrite RN_pos by exact Hp. apply round_at_nonneg, H.
  - rewrite RN_zero by lra. apply Qle_refl.
Qed.

Lemma RN_pos_mono x y : 0 < x -> x <= y -> RN x <= RN y.
Proof.
  intros Hx Hxy. assert (Hy : 0 < y) by lra.
  rewrite (RN_pos x Hx), (RN_pos y Hy).
  pose proof (mag_mono x y Hx Hxy) as Hm.
  destruct (Z.eq_dec (fexp (mag x)) (fexp (mag y))) as [E|NE].
  - rewrite E. apply round_at_mono, Hxy.
  - assert (Hlt : (mag x < mag y)%Z).
    { destruct (Z.eq_dec (mag x) (mag y)) as [E|]; [rewrite E in NE; contradiction | lia]. }
    assert (He : (fexp (mag y) = mag y - prec)%Z) by (unfold fexp in *; lia).
    destruct (mag_spec x Hx) as [_ Hx2]. destruct (mag_spec y Hy) as [Hy1 _].
    pose proof (pow2_le (mag x) (mag y - 1) ltac:(lia)) as Hp.
    apply Qle_trans with (2 ^ (mag y - 1)).
    + rewrite <- (round_at_pow2 (fexp (mag x)) (mag y - 1)).
      * apply round_at_mono. lra.
      * unfold fexp, prec in *. lia.
    + rewrite <- (round_at_pow2 (fexp (mag y)) (mag y - 1)) at 1.
      * apply round_at_mono. exact Hy1.
      * rewrite He. unfold prec. lia.
Qed.

Lemma RN_mono x y : x <= y -> RN x <= RN y.
Proof.
  intros Hxy. destruct (Qlt_le_dec 0 x) as [Hx|Hx].
  - apply RN_pos_mono; assumption.
  - assert (Hrx : RN x <= 0).
    { pose proof (RN_nonneg (- x) ltac:(lra)) as H. rewrite RN_opp in H. lra. }
    destruct (Qlt_le_dec y 0) as [Hy|Hy].
    + pose proof (RN_pos_mono (- y) (- x) ltac:(lra) ltac:(lra)) as H.
      rewrite !RN_opp in H. lra.
    + pose proof (RN_nonneg y Hy). lra.
Qed.

#[global] Instance RN_comp : Proper (Qeq ==> Qeq) RN.
Proof.
  intros x y E. apply Qle_antisym; apply RN_mono; rewrite E; apply Qle_refl.
Qed.

(** Integers below [2^53] in magnitude are binary64 values. *)
Lemma RN_int_pos z : (0 < z < 2 ^ prec)%Z -> RN (inject_Z z) == inject_Z z.
Proof.
  intros [Hz Hb].
  assert (Hq : 0 < inject_Z z) by (change 0 with (inject_Z 0); rewrite <- Zlt_Qlt; exact Hz).
  rewrite (RN_pos _ Hq).
  destruct (mag_spec _ Hq) as [Hlo _].
  assert (Hm : (mag (inject_Z z) <= prec)%Z).
  { assert (H : 2 ^ (mag (inject_Z z) - 1) < 2 ^ prec).
    { apply Qle_lt_trans with (inject_Z z); [exact Hlo|].
      rewrite (pow2_Z prec) by (unfold prec; lia). rewrite <- Zlt_Qlt. exact Hb. }
    apply pow2_lt_inv in H. lia. }
  set (e := fexp (mag (inject_Z z))).
  assert (He : (e <= 0)%Z) by (unfold e, fexp, emin, prec in *; lia).
  assert (E : inject_Z z == inject_Z (z * 2 ^ (- e)) * 2 ^ e).
  { rewrite inject_Z_mult, <- (pow2_Z (- e)) by lia.
    rewrite <- Qmult_assoc, <- pow2_add. replace (- e + e)%Z with 0%Z by lia.
    change (2 ^ 0) with 1. ring. }
  rewrite E at 1. rewrite round_at_multiple. symmetry. exact E.
Qed.

Lemma RN_int z : (Z.abs z < 2 ^ prec)%Z -> RN (inject_Z z) == inject_Z z.
Proof.
  intros H. destruct (Z.lt_trichotomy z 0) as [Hn|[Hz|Hp]].
  - assert (E : inject_Z z == - inject_Z (- z)) by (rewrite inject_Z_opp; ring).
    rewrite E, RN_opp, RN_int_pos by lia. reflexivity.
  - subst z. reflexivity.
  - apply RN_int_pos. lia.
Qed.

(** Rounding moves a value by at most half a unit in the last place. *)
Lemma rnd_even_error q : Qabs (inject_Z (rnd_even q) - q) <= 1 # 2.
Proof.
  apply Qabs_Qle_condition. unfold rnd_even.
  pose proof (Qfloor_le q) as Hlo. pose proof (Qlt_floor q) as Hhi.
  rewrite inject_Z_plus in Hhi. change (inject_Z 1) with 1 in Hhi.
  destruct (Qcompare_spec (q - inject_Z (Qfloor q)) (1 # 2)) as [E|E|E];
    [destruct (Z.even (Qfloor q))| |];
    rewrite ?inject_Z_plus; change (inject_Z 1) with 1; lra.
Qed.

Lemma round_at_error e x : Qabs (round_at e x - x) <= 2 ^ (e - 1).
Proof.
  unfold round_at. pose proof (pow2_pos e) as Hp.
  pose proof (rnd_even_error (x / 2 ^ e)) as He.
  assert (E2 : 2 ^ (e - 1) == (1 # 2) * 2 ^ e).
  { replace (e - 1)%Z with (-1 + e)%Z by lia. rewrite pow2_add. reflexivity. }
  assert (Ex : inject_Z (rnd_even (x / 2 ^ e)) * 2 ^ e - x
               == (inject_Z (rnd_even (x / 2 ^ e)) - x / 2 ^ e) * 2 ^ e).
  { field. lra. }
  rewrite Ex, E2, Qabs_Qmult, (Qabs_pos (2 ^ e)) by lra.
  apply Qmult_le_compat_r; [exact He | lra].
Qed.

Lemma fexp_mono a b : (a <= b)%Z -> (fexp a <= fexp b)%Z.
Proof. unfold fexp. lia. Qed.

Lemma RN_error_pos x b : 0 < x -> x < 2 ^ b -> Qabs (RN x - x) <= 2 ^ (fexp b - 1).
Proof.
  intros Hx Hb. rewrite (RN_pos x Hx).
  destruct (mag_spec x Hx) as [Hlo _].
  assert (Hm : (mag x <= b)%Z).
  { assert (H : 2 ^ (mag x - 1) < 2 ^ b) by lra. apply pow2_lt_inv in H. lia. }
  apply Qle_trans with (2 ^ (fexp (mag x) - 1)); [apply round_at_error|].
  apply pow2_le. pose proof (fexp_mono _ _ Hm). lia.
Qed.

Lemma RN_error x b : Qabs x < 2 ^ b -> Qabs (RN x - x) <= 2 ^ (fexp b - 1).
Proof.
  intros Hb. destruct (Qlt_le_dec 0 x) as [Hp|Hn].
  - apply RN_error_pos; [exact Hp|]. rewrite Qabs_pos in Hb by lra. exact Hb.
  - destruct (Qlt_le_dec x 0) as [Hneg|Hz].
    + assert (E : RN x - x == - (RN (- x) - - x)) by (rewrite RN_opp; ring).
      rewrite E, Qabs_opp. apply RN_error_pos; [lra|].
      rewrite Qabs_neg in Hb by lra. exact Hb.
    + rewrite (RN_zero x) by lra.
      assert (E : 0 - x == 0) by lra. rewrite E. apply Qlt_le_weak, pow2_pos.
Qed.

End Binary64Facts.

(** ** Truncation and the channel arithmetic of the gradient *)

Section Channel.
Import Binary64 Binary64Facts.
Local Open Scope Q_scope.

Lemma Qmult_le_nonneg_l z x y : 0 <= z -> x <= y -> z * x <= z * y.
Proof.
  intros Hz H. rewrite (Qmult_comm z x), (Qmult_comm z y).
  apply Qmult_le_compat_r; assumption.
Qed.

Lemma py_int_mono x y : x <= y -> (py_int x <= py_int y)%Z.
Proof.
  intros H. unfold py_int.
  destruct (Qle_bool 0 x) eqn:Hx; destruct (Qle_bool 0 y) eqn:Hy.
  - apply Qfloor_resp_le, H.
  - apply Qle_bool_iff in Hx. exfalso.
    assert (Hc : Qle_bool 0 y = true) by (apply Qle_bool_iff; lra). congruence.
  - apply Qle_bool_iff in Hy.
    assert (Hxn : x <= 0).
    { destruct (Qlt_le_dec 0 x) as [Hc|Hc]; [|exact Hc].
      assert (Qle_bool 0 x = true) by (apply Qle_bool_iff; lra). congruence. }
    pose proof (Qceiling_resp_le x 0 Hxn) as H1.
    pose proof (Qfloor_resp_le 0 y Hy) as H2.
    change (Qceiling 0) with 0%Z in H1. change (Qfloor 0) with 0%Z in H2. lia.
  - apply Qceiling_resp_le, H.
Qed.

Lemma py_int_comp x y : x == y -> py_int x = py_int y.
Proof.
  intros E. apply Z.le_antisymm; apply py_int_mono; rewrite E; apply Qle_refl.
Qed.

Lemma py_int_Z k : py_int (inject_Z k) = k.
Proof.
  unfold py_int. destruct (Qle_bool 0 (inject_Z k)).
  - apply Qfloor_Z.
  - apply Qceiling_Z.
Qed.

Lemma inject_Z_bounds a z b :
  (a <= z <= b)%Z -> inject_Z a <= inject_Z z /\ inject_Z z <= inject_Z b.
Proof. intros [? ?]. rewrite <- !Zle_Qle. split; assumption. Qed.

Lemma Qmult_bound a b A B :
  - A <= a /\ a <= A -> - B <= b /\ b <= B -> - (A * B) <= a * b /\ a * b <= A * B.
Proof.
  intros Ha Hb. apply Qabs_Qle_condition in Ha. apply Qabs_Qle_condition in Hb.
  apply Qabs_Qle_condition. rewrite Qabs_Qmult.
  apply Qmult_le_compat_nonneg; split; auto using Qabs_nonneg.
Qed.

Lemma Qabs_le_iff x y : Qabs x <= y <-> - y <= x /\ x <= y.
Proof. apply Qabs_Qle_condition. Qed.

Lemma py_int_floor_le x : (Qfloor x <= py_int x)%Z.
Proof.
  unfold py_int. destruct (Qle_bool 0 x); [lia | rewrite Zle_Qle; apply Qle_floor_ceiling].
Qed.

Lemma py_int_below x k : (0 <= k)%Z -> x < inject_Z (k + 1) -> (py_int x <= k)%Z.
Proof.
  intros Hk Hx. unfold py_int. destruct (Qle_bool 0 x) eqn:E.
  - pose proof (Qfloor_le x) as Hf.
    assert (H : inject_Z (Qfloor x) < inject_Z (k + 1)) by lra.
    rewrite <- Zlt_Qlt in H. lia.
  - assert (Hn : x <= 0).
    { destruct (Qlt_le_dec 0 x) as [Hc|Hc]; [|exact Hc].
      assert (Qle_bool 0 x = true) by (apply Qle_bool_iff; lra). congruence. }
    pose proof (Qceiling_resp_le x 0 Hn) as H. change (Qceiling 0) with 0%Z in H. lia.
Qed.

Lemma overflow_bound_large : (2 ^ prec <= overflow_bound)%Z.
Proof. apply Z.leb_le. vm_compute. reflexivity. Qed.

Lemma float_of_int_small n :
  (Z.abs n < 2 ^ prec)%Z -> float_of_int n = Ok (RN (inject_Z n)).
Proof.
  intros H. unfold float_of_int. pose proof overflow_bound_large.
  destruct (Z.leb_spec overflow_bound (Z.abs n)); [lia | reflexivity].
Qed.

Lemma channel_small c1 c2 ratio :
  (Z.abs c1 < 2 ^ prec)%Z -> (Z.abs (c2 - c1) < 2 ^ prec)%Z ->
  channel c1 c2 ratio = Ok (lerp_at c1 c2 ratio).
Proof.
  intros H1 H2. unfold channel, int_mul_float, int_add_float.
  rewrite (float_of_int_small _ H2). simpl.
  rewrite (float_of_int_small _ H1). reflexivity.
Qed.

Lemma py_truediv_row y h :
  (0 <= y < h)%Z -> py_truediv y h = Ok (RN (inject_Z y / inject_Z h)).
Proof.
  intros H. unfold py_truediv. pose proof overflow_bound_large.
  assert (0 < 2 ^ prec)%Z by (apply Z.pow_pos_nonneg; unfold prec; lia).
  destruct (Z.eqb_spec h 0); [lia|].
  destruct (Z.leb_spec (overflow_bound * Z.abs h) (Z.abs y)); [nia | reflexivity].
Qed.

Lemma lerp_at_mono_up c1 c2 r r' :
  (c1 <= c2)%Z -> r <= r' -> (lerp_at c1 c2 r <= lerp_at c1 c2 r')%Z.
Proof.
  intros Hc Hr. unfold lerp_at, fadd, fmul.
  apply py_int_mono, RN_mono.
  assert (Hd : 0 <= RN (inject_Z (c2 - c1))).
  { apply RN_nonneg. change 0 with (inject_Z 0). rewrite <- Zle_Qle. lia. }
  assert (RN (RN (inject_Z (c2 - c1)) * r) <= RN (RN (inject_Z (c2 - c1)) * r')).
  { apply RN_mono. apply Qmult_le_nonneg_l; assumption. }
  lra.
Qed.

Lemma lerp_at_mono_down c1 c2 r r' :
  (c2 <= c1)%Z -> r <= r' -> (lerp_at c1 c2 r' <= lerp_at c1 c2 r)%Z.
Proof.
  intros Hc Hr. unfold lerp_at, fadd, fmul.
  apply py_int_mono, RN_mono.
  assert (Hd : RN (inject_Z (c2 - c1)) <= 0).
  { assert (E : inject_Z (c2 - c1) == - inject_Z (c1 - c2)).
    { rewrite <- inject_Z_opp. replace (- (c1 - c2))%Z with (c2 - c1)%Z by lia. reflexivity. }
    rewrite E, RN_opp.
    assert (0 <= RN (inject_Z (c1 - c2))).
    { apply RN_nonneg. change 0 with (inject_Z 0). rewrite <- Zle_Qle. lia. }
    lra. }
  assert (RN (RN (inject_Z (c2 - c1)) * r') <= RN (RN (inject_Z (c2 - c1)) * r)).
  { apply RN_mono.
    pose proof (Qmult_le_nonneg_l (- RN (inject_Z (c2 - c1))) r r' ltac:(lra) Hr). lra. }
  lra.
Qed.

Lemma lerp_at_0 c1 c2 r :
  (Z.abs c1 < 2 ^ prec)%Z -> r == 0 -> lerp_at c1 c2 r = c1.
Proof.
  intros Hc Hr. unfold lerp_at, fadd, fmul.
  transitivity (py_int (inject_Z c1)); [apply py_int_comp | apply py_int_Z].
  rewrite Hr, Qmult_0_r. rewrite (RN_zero 0) by reflexivity.
  rewrite Qplus_0_r. rewrite (RN_int c1 Hc). apply RN_int, Hc.
Qed.

Lemma lerp_at_1 c1 c2 r :
  (Z.abs c2 < 2 ^ prec)%Z -> (Z.abs c1 < 2 ^ prec)%Z -> (Z.abs (c2 - c1) < 2 ^ prec)%Z ->
  r == 1 -> lerp_at c1 c2 r = c2.
Proof.
  intros H2 H1 Hd Hr. unfold lerp_at, fadd, fmul.
  transitivity (py_int (inject_Z c2)); [apply py_int_comp | apply py_int_Z].
  rewrite Hr, Qmult_1_r. rewrite (RN_int _ Hd), (RN_int _ Hd), (RN_int _ H1).
  rewrite <- inject_Z_plus. replace (c1 + (c2 - c1))%Z with c2 by lia.
  apply RN_int, H2.
Qed.

Lemma ratio_bounds y h :
  (0 <= y < h)%Z -> 0 <= RN (inject_Z y / inject_Z h) <= 1.
Proof.
  intros H.
  assert (Hh : 0 < inject_Z h) by (change 0 with (inject_Z 0); rewrite <- Zlt_Qlt; lia).
  assert (Hy : 0 <= inject_Z y) by (change 0 with (inject_Z 0); rewrite <- Zle_Qle; lia).
  assert (Hyh : inject_Z y <= inject_Z h) by (rewrite <- Zle_Qle; lia).
  split.
  - apply RN_nonneg. apply Qle_shift_div_l; [exact Hh | lra].
  - rewrite <- (RN_int 1) by (unfold prec; vm_compute; reflexivity).
    apply RN_mono. apply Qle_shift_div_r; [exact Hh|].
    change (inject_Z 1) with 1. lra.
Qed.

Lemma ratio_mono y y' h :
  (0 < h)%Z -> (y <= y')%Z ->
  RN (inject_Z y / inject_Z h) <= RN (inject_Z y' / inject_Z h).
Proof.
  intros Hh Hy. apply RN_mono.
  assert (0 < inject_Z h) by (change 0 with (inject_Z 0); rewrite <- Zlt_Qlt; lia).
  apply Qmult_le_compat_r; [rewrite <- Zle_Qle; exact Hy|].
  apply Qlt_le_weak, Qinv_lt_0_compat. assumption.
Qed.

Lemma c_int_small n : (- 2 ^ 31 <= n < 2 ^ 31)%Z -> c_int n = n.
Proof.
  intros H. unfold c_int.
  destruct (Z.leb_spec (- 2 ^ 31) n); [|lia]. destruct (Z.ltb_spec n (2 ^ 31)); [|lia].
  reflexivity.
Qed.

Lemma c_int_beyond n : (n <= - 2 ^ 31 \/ 2 ^ 31 <= n)%Z -> c_int n = (- 2 ^ 31)%Z.
Proof.
  intros H. unfold c_int.
  destruct (Z.leb_spec (- 2 ^ 31) n); destruct (Z.ltb_spec n (2 ^ 31)); cbn [andb]; lia.
Qed.

(** Every int a double can hold is a coordinate; what the C layer gets is
    the cast of the int itself. *)
Lemma coordinate_in_range n :
  (Z.abs n < overflow_bound)%Z -> coordinate n = Ok (c_int n).
Proof.
  intros H. unfold coordinate, float_of_int.
  destruct (Z.leb_spec overflow_bound (Z.abs n)); [lia|]. f_equal.
  assert (P : (2 ^ 31 < 2 ^ prec)%Z) by (unfold prec; lia).
  assert (E31 : RN (inject_Z (2 ^ 31)) == inject_Z (2 ^ 31)) by (apply RN_int; lia).
  assert (E31' : RN (inject_Z (- 2 ^ 31)) == inject_Z (- 2 ^ 31)) by (apply RN_int; lia).
  destruct (Z_lt_le_dec (Z.abs n) (2 ^ 31)) as [Hs|Hb].
  - rewrite (py_int_comp _ (inject_Z n)) by (apply RN_int; lia).
    rewrite py_int_Z. reflexivity.
  - rewrite (c_int_beyond n) by lia. apply c_int_beyond.
    destruct (Z_lt_le_dec n 0) as [Hn|Hp].
    + left. rewrite <- (py_int_Z (- 2 ^ 31)).
      rewrite <- (py_int_comp _ _ E31'). apply py_int_mono, RN_mono.
      rewrite <- Zle_Qle. lia.
    + right. rewrite <- (py_int_Z (2 ^ 31)).
      rewrite <- (py_int_comp _ _ E31). apply py_int_mono, RN_mono.
      rewrite <- Zle_Qle. lia.
Qed.

Lemma coordinate_out_of_range n :
  (overflow_bound <= Z.abs n)%Z -> coordinate n = Raise ValueError.
Proof.
  intros H. unfold coordinate, float_of_int.
  destruct (Z.leb_spec overflow_bound (Z.abs n)); [reflexivity | lia].
Qed.

End Channel.

(** ** Colors *)

Lemma hex_value_digit c v :
  hex_value c = Some v ->
  digit16 c = Some v /\ 0 <= v < 16 /\ is_space c = false /\
  Ascii.eqb c "+" = false /\ Ascii.eqb c "-" = false /\ Ascii.eqb c "_" = false /\
  Ascii.eqb c "x" = false /\ Ascii.eqb c "X" = false /\ Ascii.eqb c "#" = false.
Proof.
  destruct c as [[] [] [] [] [] [] [] []]; vm_compute; intros H;
    try discriminate H; injection H as <-; repeat split; congruence.
Qed.

Lemma int16_pair a b va vb :
  hex_value a = Some va -> hex_value b = Some vb ->
  int16 (String a (String b EmptyString)) = Ok (16 * va + vb).
Proof.
  intros Ha Hb.
  destruct (hex_value_digit a va Ha) as (Da & _ & Sa & Pa & Ma & Ua & _).
  destruct (hex_value_digit b vb Hb) as (Db & _ & Sb & _ & _ & Ub & Xb & XXb & _).
  unfold int16. cbn [skip_space]. rewrite Sa.
  unfold parse_sign. rewrite Pa, Ma.
  unfold skip_prefix16. rewrite Xb, XXb, andb_false_r.
  rewrite Da. cbn [scan_digits]. rewrite Da, Db. cbn [skip_space].
  f_equal; lia.
Qed.

Lemma byte_of_range hi lo v : byte_of hi lo = Some v -> is_byte v.
Proof.
  unfold byte_of, is_byte.
  destruct (hex_value hi) as [a|] eqn:Ha; [|discriminate].
  destruct (hex_value lo) as [b|] eqn:Hb; [|discriminate].
  intros [= <-].
  apply hex_value_digit in Ha as (_ & ? & _). apply hex_value_digit in Hb as (_ & ? & _). lia.
Qed.

Lemma int16_byte hi lo v :
  byte_of hi lo = Some v -> int16 (String hi (String lo EmptyString)) = Ok v.
Proof.
  unfold byte_of.
  destruct (hex_value hi) as [a|] eqn:Ha; [|discriminate].
  destruct (hex_value lo) as [b|] eqn:Hb; [|discriminate].
  intros [= <-]. apply int16_pair; assumption.
Qed.

Lemma hex_to_rgb_digits d1 d2 d3 d4 d5 d6 r g b :
  byte_of d1 d2 = Some r -> byte_of d3 d4 = Some g -> byte_of d5 d6 = Some b ->
  hex_to_rgb (String d1 (String d2 (String d3 (String d4 (String d5 (String d6 EmptyString))))))
  = Ok (r, g, b).
Proof.
  intros Hr Hg Hb. unfold hex_to_rgb.
  assert (H1 : Ascii.eqb d1 "#" = false).
  { unfold byte_of in Hr. destruct (hex_value d1) eqn:E; [|discriminate].
    apply hex_value_digit in E. tauto. }
  cbn [lstrip]. rewrite H1. cbn [substring].
  rewrite (int16_byte _ _ _ Hr). cbn [bindR].
  rewrite (int16_byte _ _ _ Hg). cbn [bindR].
  rewrite (int16_byte _ _ _ Hb). reflexivity.
Qed.

Lemma hex_to_rgb_valid s r g b :
  color_value s = Some (r, g, b) ->
  hex_to_rgb s = Ok (r, g, b) /\ is_byte r /\ is_byte g /\ is_byte b.
Proof.
  unfold color_value. intros H.
  assert (K : forall t,
    match t with
    | String d1 (String d2 (String d3 (String d4 (String d5 (String d6 EmptyString))))) =>
        match byte_of d1 d2, byte_of d3 d4, byte_of d5 d6 with
        | Some r, Some g, Some b => Some (r, g, b)
        | _, _, _ => None
        end
    | _ => None
    end = Some (r, g, b) ->
    hex_to_rgb t = Ok (r, g, b) /\ is_byte r /\ is_byte g /\ is_byte b).
  { intros t Ht.
    destruct t as [|d1 [|d2 [|d3 [|d4 [|d5 [|d6 [|]]]]]]]; try discriminate.
    destruct (byte_of d1 d2) as [r'|] eqn:E1; [|discriminate].
    destruct (byte_of d3 d4) as [g'|] eqn:E2; [|discriminate].
    destruct (byte_of d5 d6) as [b'|] eqn:E3; [|discriminate].
    injection Ht as <- <- <-.
    split; [apply hex_to_rgb_digits; assumption|].
    split; [|split]; eapply byte_of_range; eassumption. }
  destruct s as [|c s']; [discriminate|].
  destruct (Ascii.eqb c "#") eqn:Ec.
  - apply Ascii.eqb_eq in Ec. subst c.
    destruct (K s' H) as (Hs & Hrange). split; [|exact Hrange].
    revert Hs. unfold hex_to_rgb. cbn [lstrip]. rewrite Ascii.eqb_refl. trivial.
  - apply K, H.
Qed.

(** ** Loops over the image *)

Section Loops.

Lemma bindM_ret_l {B} (k : M B) c : (ret tt ;;; k) c = k c.
Proof. reflexivity. Qed.

Lemma bindM_assoc {A B C} (m : M A) (k : A -> M B) (k' : B -> M C) c :
  bindM (bindM m k) k' c = bindM m (fun a => bindM (k a) k') c.
Proof.
  unfold bindM. destruct (m c) as [c' [a|e]]; reflexivity.
Qed.

Lemma bindM_ext {A B} (m : M A) (k k' : A -> M B) c :
  (forall a c', k a c' = k' a c') -> bindM m k c = bindM m k' c.
Proof.
  intros H. unfold bindM. destruct (m c) as [c' [a|e]]; [apply H | reflexivity].
Qed.

Lemma for_each_ext {A} (l : list A) (body body' : A -> M unit) :
  (forall a c, body a c = body' a c) -> forall c, for_each l body c = for_each l body' c.
Proof.
  intros H. induction l as [|a l IH]; intros c; [reflexivity|].
  cbn [for_each]. unfold bindM. rewrite H.
  destruct (body' a c) as [c' [[]|e]]; [apply IH | reflexivity].
Qed.

Lemma for_each_app {A} (l k : list A) (body : A -> M unit) c :
  for_each (l ++ k) body c = (for_each l body ;;; for_each k body) c.
Proof.
  revert c. induction l as [|a l IH]; intros c; [reflexivity|].
  cbn [app for_each]. rewrite bindM_assoc. apply bindM_ext. intros _ c'. apply IH.
Qed.

Lemma for_each_filter {A} (P : A -> Prop) `{forall a, Decision (P a)}
    (l : list A) (body : A -> M unit) c :
  for_each l (fun a => if decide (P a) then body a else ret tt) c
  = for_each (filter P l) body c.
Proof.
  revert c. induction l as [|a l IH]; intros c; [reflexivity|].
  rewrite filter_cons. cbn [for_each].
  destruct (decide (P a)).
  - cbn [for_each]. apply bindM_ext. intros _ c'. apply IH.
  - rewrite bindM_ret_l. apply IH.
Qed.

Lemma for_each_nested {A B} (l : list A) (k : list B) (body : A -> B -> M unit) c :
  for_each l (fun a => for_each k (body a)) c
  = for_each (cprod l k) (fun p => body p.1 p.2) c.
Proof.
  revert c. induction l as [|a l IH]; intros c; [reflexivity|].
  change (cprod (a :: l) k) with (((a ,.) <$> k) ++ cprod l k).
  rewrite for_each_app. cbn [for_each].
  unfold bindM.
  assert (E : forall c0, for_each k (body a) c0
                         = for_each ((a ,.) <$> k) (fun p => body p.1 p.2) c0).
  { clear. induction k as [|b k IHk]; intros c0; [reflexivity|].
    cbn [fmap list_fmap for_each]. apply bindM_ext. intros _ c'. apply IHk. }
  rewrite E. destruct (for_each _ _ c) as [c' [[]|e]]; [apply IH | reflexivity].
Qed.

Lemma length_cprod {A B} (l : list A) (k : list B) :
  length (cprod l k) = (length l * length k)%nat.
Proof.
  induction l as [|a l IH]; [reflexivity|].
  change (cprod (a :: l) k) with (((a ,.) <$> k) ++ cprod l k).
  rewrite length_app, length_fmap, IH. cbn [length]. lia.
Qed.

Lemma NoDup_cprod {A B} (l : list A) (k : list B) :
  NoDup l -> NoDup k -> NoDup (cprod l k).
Proof.
  intros Hl Hk. unfold cprod, list_cprod. apply NoDup_bind; [| |exact Hl].
  - intros a1 a2 p _ _ H1 H2.
    apply list_elem_of_fmap in H1 as (b1 & -> & _).
    apply list_elem_of_fmap in H2 as (b2 & E & _). congruence.
  - intros a _. apply NoDup_fmap_2; [|exact Hk]. intros b1 b2. congruence.
Qed.

Lemma length_filter_remove {A} `{EqDecision A} (x : A) (l : list A) :
  NoDup l -> x ∈ l -> S (length (filter (fun a => a <> x) l)) = length l.
Proof.
  induction 1 as [|a l Hnotin Hnd IH]; intros Hx.
  - inversion Hx.
  - rewrite filter_cons. destruct (decide (a <> x)) as [Hne|He].
    + cbn [length]. f_equal. apply IH.
      apply elem_of_cons in Hx as [->|Hx]; [contradiction | exact Hx].
    + assert (a = x) by (destruct (decide (a = x)); [assumption | contradiction]).
      subst a. cbn [length]. f_equal.
      clear IH Hx He Hnd. induction l as [|b l IHl]; [reflexivity|].
      rewrite filter_cons. destruct (decide (b <> x)) as [_|Hb].
      * cbn [length]. f_equal. apply IHl. intros Hc. apply Hnotin. right. exact Hc.
      * exfalso. apply Hnotin. destruct (decide (b = x)) as [->|]; [left | contradiction].
Qed.

End Loops.

(** ** The gradient *)

Section Gradient.
Import Binary64 Binary64Facts.

Lemma small_int c : -512 <= c <= 512 -> Z.abs c < 2 ^ prec.
Proof. change (2 ^ prec) with 9007199254740992. lia. Qed.

Lemma lerp_between c1 c2 y h :
  is_byte c1 -> is_byte c2 -> 0 <= y < h ->
  Z.min c1 c2 <= lerp c1 c2 y h <= Z.max c1 c2.
Proof.
  unfold is_byte. intros H1 H2 Hy.
  destruct (ratio_bounds y h Hy) as [Hr0 Hr1].
  assert (S1 := small_int c1 ltac:(lia)).
  assert (S2 := small_int c2 ltac:(lia)).
  assert (Sd := small_int (c2 - c1) ltac:(lia)).
  pose proof (lerp_at_0 c1 c2 0%Q S1 ltac:(reflexivity)) as E0.
  pose proof (lerp_at_1 c1 c2 1%Q S2 S1 Sd ltac:(reflexivity)) as E1.
  unfold lerp. destruct (Z.le_ge_cases c1 c2) as [Hc|Hc].
  - pose proof (lerp_at_mono_up c1 c2 _ _ Hc Hr0).
    pose proof (lerp_at_mono_up c1 c2 _ _ Hc Hr1). lia.
  - pose proof (lerp_at_mono_down c1 c2 _ _ Hc Hr0).
    pose proof (lerp_at_mono_down c1 c2 _ _ Hc Hr1). lia.
Qed.

Lemma lerp_byte c1 c2 y h :
  is_byte c1 -> is_byte c2 -> 0 <= y < h -> is_byte (lerp c1 c2 y h).
Proof.
  intros H1 H2 Hy. pose proof (lerp_between c1 c2 y h H1 H2 Hy).
  unfold is_byte in *. lia.
Qed.

Lemma clip8_byte v : is_byte v -> clip8 v = v.
Proof. unfold is_byte, clip8. lia. Qed.

Lemma row_color_is_color top bottom y h :
  is_color top -> is_color bottom -> 0 <= y < h -> is_color (row_color top bottom y h).
Proof.
  destruct top as [[r1 g1] b1], bottom as [[r2 g2] b2].
  intros (?&?&?) (?&?&?) Hy. cbn. auto using lerp_byte.
Qed.

Lemma ink_of_color c : is_color c -> ink_of c = c.
Proof.
  destruct c as [[r g] b]. intros (?&?&?). cbn.
  rewrite !clip8_byte by assumption. reflexivity.
Qed.

Lemma for_each_pure {A} (l : list A) (body : A -> M unit) (f : A -> canvas -> canvas) :
  (forall a, a ∈ l -> forall c, body a c = (f a c, Ok tt)) ->
  forall c, for_each l body c = (foldl (fun c a => f a c) c l, Ok tt).
Proof.
  induction l as [|a l IH]; intros Hb c; [reflexivity|].
  cbn [for_each foldl]. unfold bindM.
  rewrite (Hb a) by (left). apply IH.
  intros a' Ha'. apply Hb. right. exact Ha'.
Qed.

(** A loop that raises at [a], after the iterations of [l]. *)
Lemma for_each_raise_at {A} (l k : list A) a (body : A -> M unit)
    (f : A -> canvas -> canvas) e :
  (forall b, b ∈ l -> forall c, body b c = (f b c, Ok tt)) ->
  (forall c, body a c = (c, Raise e)) ->
  forall c, for_each (l ++ a :: k) body c = (foldl (fun c b => f b c) c l, Raise e).
Proof.
  intros Hl Ha c. rewrite for_each_app. unfold bindM.
  rewrite (for_each_pure l body f Hl). cbn [for_each]. unfold bindM.
  rewrite Ha. reflexivity.
Qed.

(** [draw.line] as the gradient calls it: it raises when a coordinate is
    beyond the doubles, and draws in row [c_int y] otherwise. *)
Lemma draw_line_row width y color c :
  0 <= y ->
  draw_line (0, y) (width, y) color c
  = if (overflow_bound <=? y) || (overflow_bound <=? Z.abs width)
    then (c, Raise ValueError)
    else (draw_hline c 0 (c_int width) (c_int y) color, Ok tt).
Proof.
  intros Hy. pose proof overflow_bound_large as Hob.
  assert (0 < 2 ^ prec) by (unfold prec; lia).
  unfold draw_line. cbn [fst snd].
  unfold bindM at 1. unfold lift at 1.
  rewrite (coordinate_in_range 0) by lia. change (c_int 0) with 0.
  unfold bindM at 1. unfold lift at 1.
  destruct (Z.leb_spec overflow_bound y) as [Hby|Hsy]; cbn [orb].
  { rewrite coordinate_out_of_range by lia. reflexivity. }
  rewrite (coordinate_in_range y) by lia.
  unfold bindM at 1. unfold lift at 1.
  destruct (Z.leb_spec overflow_bound (Z.abs width)) as [Hbw|Hsw].
  { rewrite coordinate_out_of_range by lia. reflexivity. }
  rewrite (coordinate_in_range width) by lia. reflexivity.
Qed.

Lemma gradient_row_step width height r1 g1 b1 r2 g2 b2 y c :
  -255 <= r1 <= 255 -> -255 <= g1 <= 255 -> -255 <= b1 <= 255 ->
  -255 <= r2 <= 255 -> -255 <= g2 <= 255 -> -255 <= b2 <= 255 ->
  0 <= y < height ->
  (let* ratio := lift (py_truediv y height) in
   let* r := lift (channel r1 r2 ratio) in
   let* g := lift (channel g1 g2 ratio) in
   let* b := lift (channel b1 b2 ratio) in
   draw_line (0, y) (width, y) (r, g, b)) c
  = if (overflow_bound <=? y) || (overflow_bound <=? Z.abs width)
    then (c, Raise ValueError)
    else (draw_hline c 0 (c_int width) (c_int y)
            (row_color (r1, g1, b1) (r2, g2, b2) y height), Ok tt).
Proof.
  intros ? ? ? ? ? ? Hy.
  unfold bindM at 1. unfold lift at 1. rewrite (py_truediv_row y height Hy).
  unfold bindM at 1. unfold lift at 1. rewrite channel_small by (apply small_int; lia).
  unfold bindM at 1. unfold lift at 1. rewrite channel_small by (apply small_int; lia).
  unfold bindM at 1. unfold lift at 1. rewrite channel_small by (apply small_int; lia).
  apply draw_line_row. lia.
Qed.

Lemma draw_hline_lookup c x0 x1 y color j :
  0 <= y ->
  draw_hline c x0 x1 y color !! j =
  if decide (j = Z.to_nat y)
  then fill_span (Z.min x0 x1) (Z.max x0 x1) (ink_of color) <$> c !! j
  else c !! j.
Proof.
  intros Hy. unfold draw_hline.
  destruct (Z.ltb_spec y 0); [lia|].
  destruct (decide (j = Z.to_nat y)) as [->|Hne].
  - apply list_lookup_alter_eq.
  - apply list_lookup_alter_ne. congruence.
Qed.

(** The rows painted by the first [m] iterations: those the C layer can
    address. *)
Lemma gradient_fold_lookup width top bottom height m c j :
  0 <= m ->
  foldl (fun c y => draw_hline c 0 (c_int width) (c_int y) (row_color top bottom y height))
        c (seqZ 0 m) !! j =
  if (Z.of_nat j <? m) && (Z.of_nat j <? 2 ^ 31)
  then fill_span (Z.min 0 (c_int width)) (Z.max 0 (c_int width))
         (ink_of (row_color top bottom (Z.of_nat j) height)) <$> c !! j
  else c !! j.
Proof.
  intros Hm. pattern m. apply natlike_ind; [| |exact Hm]; clear m Hm.
  - rewrite seqZ_nil by lia. cbn [foldl].
    destruct (Z.ltb_spec (Z.of_nat j) 0); [lia | reflexivity].
  - intros m Hm IH. unfold Z.succ. rewrite seqZ_app by lia.
    rewrite (seqZ_cons (0 + m) 1) by lia. rewrite (seqZ_nil _ (Z.pred 1)) by lia.
    rewrite foldl_app. cbn [foldl]. replace (0 + m) with m by lia.
    destruct (Z_lt_le_dec m (2 ^ 31)) as [Hs|Hb].
    + rewrite (c_int_small m) by lia. rewrite draw_hline_lookup by lia. rewrite IH.
      destruct (decide (j = Z.to_nat m)) as [->|Hne].
      * rewrite Z2Nat.id by lia.
        destruct (Z.ltb_spec m m); [lia|].
        destruct (Z.ltb_spec m (m + 1)); [|lia].
        destruct (Z.ltb_spec m (2 ^ 31)); [|lia]. reflexivity.
      * destruct (Z.ltb_spec (Z.of_nat j) m);
          destruct (Z.ltb_spec (Z.of_nat j) (m + 1)); try lia; reflexivity.
    + rewrite (c_int_beyond m) by lia. unfold draw_hline at 1.
      destruct (Z.ltb_spec (- 2 ^ 31) 0); [|lia]. rewrite IH.
      destruct (Z.ltb_spec (Z.of_nat j) m);
        destruct (Z.ltb_spec (Z.of_nat j) (m + 1));
        destruct (Z.ltb_spec (Z.of_nat j) (2 ^ 31)); try lia; reflexivity.
Qed.

Lemma gradient_fold_canvas width height top bottom m c :
  0 <= m ->
  (forall j, 0 <= j -> (j <? m) && (j <? 2 ^ 31) = (j <? height) && (j <? 2 ^ 31)) ->
  foldl (fun c y => draw_hline c 0 (c_int width) (c_int y) (row_color top bottom y height))
        c (seqZ 0 m)
  = gradient_canvas width height top bottom c.
Proof.
  intros Hm Hj. apply list_eq. intros j.
  rewrite gradient_fold_lookup by exact Hm. unfold gradient_canvas.
  rewrite list_lookup_imap, Hj by lia.
  destruct (c !! j); cbn [fmap option_fmap option_map];
    destruct ((Z.of_nat j <? height) && (Z.of_nat j <? 2 ^ 31)); reflexivity.
Qed.

(** The loop of [create_gradient_background], for every width and height:
    it raises at its first row when the width is beyond the doubles, and at
    the first row that is; the rows before are painted. *)
Lemma gradient_loop width height r1 g1 b1 r2 g2 b2 c :
  -255 <= r1 <= 255 -> -255 <= g1 <= 255 -> -255 <= b1 <= 255 ->
  -255 <= r2 <= 255 -> -255 <= g2 <= 255 -> -255 <= b2 <= 255 ->
  for_each (py_range 0 height) (fun y =>
    let* ratio := lift (py_truediv y height) in
    let* r := lift (channel r1 r2 ratio) in
    let* g := lift (channel g1 g2 ratio) in
    let* b := lift (channel b1 b2 ratio) in
    draw_line (0, y) (width, y) (r, g, b)) c
  = if (0 <? height) && (overflow_bound <=? Z.abs width)
    then (c, Raise ValueError)
    else (gradient_canvas width height (r1, g1, b1) (r2, g2, b2) c,
          if height <=? overflow_bound then Ok tt else Raise ValueError).
Proof.
  intros R1 G1 B1 R2 G2 B2. pose proof overflow_bound_large as Hob.
  assert (P : 2 ^ 31 < 2 ^ prec) by (unfold prec; lia).
  pose proof (fun y c' Hy => gradient_row_step width height r1 g1 b1 r2 g2 b2 y c'
                               R1 G1 B1 R2 G2 B2 Hy) as Step.
  unfold py_range. replace (height - 0) with height by lia.
  destruct (Z.ltb_spec 0 height) as [Hh|Hh]; cbn [andb].
  2:{ rewrite seqZ_nil by lia. cbn [for_each]. unfold ret.
      destruct (Z.leb_spec height overflow_bound); [|lia].
      rewrite <- (gradient_fold_canvas width height (r1, g1, b1) (r2, g2, b2) 0 c).
      - reflexivity.
      - lia.
      - intros j Hj. destruct (Z.ltb_spec j 0); destruct (Z.ltb_spec j height);
          try lia; reflexivity. }
  destruct (Z.leb_spec overflow_bound (Z.abs width)) as [Hbw|Hsw].
  { rewrite seqZ_cons by lia. cbn [for_each]. unfold bindM at 1.
    rewrite Step by lia.
    destruct (Z.leb_spec overflow_bound 0); [lia|].
    destruct (Z.leb_spec overflow_bound (Z.abs width)); [|lia]. reflexivity. }
  destruct (Z.leb_spec height overflow_bound) as [Hsh|Hbh].
  - rewrite (for_each_pure _ _
      (fun y c => draw_hline c 0 (c_int width) (c_int y)
                    (row_color (r1, g1, b1) (r2, g2, b2) y height))).
    + rewrite gradient_fold_canvas; [reflexivity | lia | reflexivity].
    + intros y Hy c'. apply elem_of_seqZ in Hy. rewrite Step by lia.
      destruct (Z.leb_spec overflow_bound y); [lia|].
      destruct (Z.leb_spec overflow_bound (Z.abs width)); [lia|]. reflexivity.
  - replace height with (overflow_bound + (height - overflow_bound)) at 1 by lia.
    rewrite seqZ_app by lia.
    rewrite (seqZ_cons (0 + overflow_bound)) by lia.
    rewrite (for_each_raise_at _ _ _ _
      (fun y c => draw_hline c 0 (c_int width) (c_int y)
                    (row_color (r1, g1, b1) (r2, g2, b2) y height)) ValueError).
    + rewrite gradient_fold_canvas; [reflexivity | lia |].
      intros j Hj. destruct (Z.ltb_spec j overflow_bound); destruct (Z.ltb_spec j height);
        destruct (Z.ltb_spec j (2 ^ 31)); try lia; reflexivity.
    + intros y Hy c'. apply elem_of_seqZ in Hy. rewrite Step by lia.
      destruct (Z.leb_spec overflow_bound y); [lia|].
      destruct (Z.leb_spec overflow_bound (Z.abs width)); [lia|]. reflexivity.
    + intros c'. rewrite Step by lia.
      destruct (Z.leb_spec overflow_bound (0 + overflow_bound)); [|lia]. reflexivity.
Qed.

(** What [create_gradient_background] does with valid colors, for every
    width and height whose coordinates a double can hold. *)
Lemma gradient_run width height color_top color_bottom top bottom c :
  color_value color_top = Some top -> color_value color_bottom = Some bottom ->
  Z.abs width < overflow_bound -> height <= overflow_bound ->
  create_gradient_background width height color_top color_bottom c
  = (gradient_canvas width height top bottom c, Ok tt).
Proof.
  intros Ht Hb Hw Hh.
  destruct top as [[r1 g1] b1] eqn:Et, bottom as [[r2 g2] b2] eqn:Eb.
  destruct (hex_to_rgb_valid _ _ _ _ Ht) as (Pt & Ct).
  destruct (hex_to_rgb_valid _ _ _ _ Hb) as (Pb & Cb).
  unfold is_byte in Ct, Cb.
  unfold create_gradient_background.
  unfold bindM at 1. unfold lift at 1. rewrite Pt.
  unfold bindM at 1. unfold lift at 1. rewrite Pb.
  rewrite gradient_loop by lia.
  destruct (Z.leb_spec overflow_bound (Z.abs width)); [lia|]. rewrite andb_false_r.
  destruct (Z.leb_spec height overflow_bound); [reflexivity | lia].
Qed.

Lemma gradient_canvas_pixel width height top bottom c x y :
  pixel (gradient_canvas width height top bottom c) x y =
  (fun p =>
     if (Z.of_nat y <? height) && (Z.of_nat y <? 2 ^ 31)
        && (Z.min 0 (c_int width) <=? Z.of_nat x) && (Z.of_nat x <=? Z.max 0 (c_int width))
     then ink_of (row_color top bottom (Z.of_nat y) height)
     else p) <$> pixel c x y.
Proof.
  unfold pixel, gradient_canvas. rewrite list_lookup_imap.
  destruct (c !! y) as [row|]; [|reflexivity]. cbn [fmap option_fmap option_map].
  destruct ((Z.of_nat y <? height) && (Z.of_nat y <? 2 ^ 31)); cbn [andb].
  - unfold fill_span. rewrite list_lookup_imap.
    destruct (row !! x); reflexivity.
  - destruct (row !! x); reflexivity.
Qed.

Lemma has_size_pixel w h c x y :
  has_size w h c -> (x < w)%nat -> (y < h)%nat -> is_Some (pixel c x y).
Proof.
  intros (Hl & Hr & _) Hx Hy. unfold pixel.
  destruct (lookup_lt_is_Some_2 c y ltac:(lia)) as [row Hrow].
  rewrite Hrow. apply lookup_lt_is_Some_2.
  rewrite Forall_lookup in Hr. rewrite (Hr y row Hrow). exact Hx.
Qed.

Lemma gradient_canvas_size width height top bottom w h c :
  has_size w h c -> has_size w h (gradient_canvas width height top bottom c).
Proof.
  intros (Hl & Hr & Hb). unfold gradient_canvas. split; [|split; [|exact Hb]].
  - rewrite length_imap. exact Hl.
  - rewrite Forall_lookup in *. intros j row Hj.
    rewrite list_lookup_imap in Hj.
    destruct (c !! j) as [row0|] eqn:E; [|discriminate].
    injection Hj as <-. specialize (Hr j row0 E).
    destruct ((Z.of_nat j <? height) && (Z.of_nat j <? 2 ^ 31)); [|exact Hr].
    unfold fill_span. rewrite length_imap. exact Hr.
Qed.

(** Two images of the same size, one of whose dimensions is zero, are the
    same image. *)
Lemma has_size_degenerate w h c c' :
  has_size w h c -> has_size w h c' -> w = 0%nat \/ h = 0%nat -> c = c'.
Proof.
  intros (L & R & _) (L' & R' & _) Hd.
  apply list_eq. intros j. rewrite Forall_lookup in R, R'.
  destruct (c !! j) as [row|] eqn:E; destruct (c' !! j) as [row'|] eqn:E'.
  - f_equal. destruct Hd as [->| ->].
    + specialize (R j row E). specialize (R' j row' E').
      destruct row; [|discriminate]. destruct row'; [reflexivity | discriminate].
    + apply lookup_lt_Some in E. lia.
  - apply lookup_lt_Some in E. apply lookup_ge_None in E'. lia.
  - apply lookup_lt_Some in E'. apply lookup_ge_None in E. lia.
  - reflexivity.
Qed.

End Gradient.

(** ** The gradient against exact arithmetic *)

Section Exactness.
Import Binary64 Binary64Facts.
Local Open Scope Q_scope.

(** The float sum [s] that the code truncates lies within [2^-44] of the
    exact interpolation [N / h], with [N = c1*h + (c2 - c1)*y]; as [h] is at
    most [2^40], [s * h] lies within [1/16] of [N]. *)
Lemma lerp_sum_error c1 c2 y h :
  is_byte c1 -> is_byte c2 -> (0 <= y < h)%Z -> (h <= 2 ^ 40)%Z ->
  exists s : Q,
    lerp c1 c2 y h = py_int s /\
    inject_Z (c1 * h + (c2 - c1) * y) - (1 # 16) <= s * inject_Z h /\
    s * inject_Z h <= inject_Z (c1 * h + (c2 - c1) * y) + (1 # 16).
Proof.
  unfold is_byte. intros H1 H2 Hy Hh.
  set (N := (c1 * h + (c2 - c1) * y)%Z).
  unfold lerp, lerp_at, fadd, fmul.
  set (H := inject_Z h). set (Y := inject_Z y).
  set (q := Y / H). set (r := RN q).
  assert (HH : 1 <= H) by (unfold H; change 1 with (inject_Z 1); rewrite <- Zle_Qle; lia).
  assert (HH40 : H <= 1099511627776).
  { unfold H. change 1099511627776 with (inject_Z (2 ^ 40)). rewrite <- Zle_Qle. exact Hh. }
  assert (HY : 0 <= Y /\ Y + 1 <= H).
  { unfold Y, H. split.
    - change 0 with (inject_Z 0). rewrite <- Zle_Qle. lia.
    - change 1 with (inject_Z 1). rewrite <- inject_Z_plus, <- Zle_Qle. lia. }
  assert (Hq : q * H == Y) by (unfold q; field; lra).
  assert (Hq01 : 0 <= q /\ q < 1).
  { split.
    - apply Qle_shift_div_l; lra.
    - apply Qlt_shift_div_r; lra. }
  destruct (ratio_bounds y h Hy) as [Hr0 Hr1]. fold H Y q r in Hr0, Hr1.
  pose proof (RN_error q 0 ltac:(rewrite Qabs_pos by lra; change (2 ^ 0) with 1; lra)) as Er.
  fold r in Er. change (2 ^ (fexp 0 - 1)) with (1 # 18014398509481984) in Er.
  apply Qabs_le_iff in Er.
  set (d := (c2 - c1)%Z).
  assert (HD : RN (inject_Z d) == inject_Z d) by (apply RN_int, small_int; unfold d; lia).
  assert (HC : RN (inject_Z c1) == inject_Z c1) by (apply RN_int, small_int; lia).
  assert (Hd : - 255 <= inject_Z d /\ inject_Z d <= 255).
  { pose proof (inject_Z_bounds (-255) d 255 ltac:(unfold d; lia)) as B.
    change (inject_Z (-255)) with (-255 # 1) in B. change (inject_Z 255) with 255 in B. lra. }
  assert (Hc1 : 0 <= inject_Z c1 /\ inject_Z c1 <= 255).
  { pose proof (inject_Z_bounds 0 c1 255 ltac:(lia)) as B.
    change (inject_Z 0) with 0 in B. change (inject_Z 255) with 255 in B. lra. }
  exists (RN (inject_Z c1 + RN (inject_Z d * r))).
  split; [apply py_int_comp; rewrite HD, HC; reflexivity|].
  set (D := inject_Z d) in *. set (C := inject_Z c1) in *.
  assert (Hdr : - 255 <= D * r /\ D * r <= 255).
  { pose proof (Qmult_bound D r 255 1 Hd ltac:(lra)). lra. }
  set (p := RN (D * r)).
  pose proof (RN_error (D * r) 8
    ltac:(apply Qabs_Qlt_condition; change (2 ^ 8) with 256; lra)) as Ep.
  fold p in Ep. change (2 ^ (fexp 8 - 1)) with (1 # 70368744177664) in Ep.
  apply Qabs_le_iff in Ep.
  assert (Hp : - 255 <= p /\ p <= 255).
  { split.
    - pose proof (RN_mono (inject_Z (-255)) (D * r)) as Hm.
      rewrite (RN_int (-255)) in Hm by (apply small_int; lia).
      change (inject_Z (-255)) with (-255 # 1) in Hm. fold p in Hm.
      assert ((-255 # 1) <= p) by (apply Hm; lra). lra.
    - pose proof (RN_mono (D * r) (inject_Z 255)) as Hm.
      rewrite (RN_int 255) in Hm by (apply small_int; lia).
      change (inject_Z 255) with 255 in Hm. fold p in Hm. apply Hm. lra. }
  set (s := RN (C + p)).
  pose proof (RN_error (C + p) 9
    ltac:(apply Qabs_Qlt_condition; change (2 ^ 9) with 512; lra)) as Es.
  fold s in Es. change (2 ^ (fexp 9 - 1)) with (1 # 35184372088832) in Es.
  apply Qabs_le_iff in Es.
  assert (EN : inject_Z N == C * H + D * Y).
  { unfold N, C, D, H, Y, d. rewrite inject_Z_plus, !inject_Z_mult. reflexivity. }
  assert (Hdq : - (255 # 18014398509481984) <= D * r - D * q
                /\ D * r - D * q <= 255 # 18014398509481984).
  { pose proof (Qmult_bound D (r - q) 255 (1 # 18014398509481984) Hd Er) as B.
    lra. }
  assert (Hs : C + D * q - (1 # 17592186044416) <= s /\ s <= C + D * q + (1 # 17592186044416))
    by (split; lra).
  assert (HsH : (C + D * q) * H == inject_Z N) by (rewrite EN; rewrite <- Hq; ring).
  assert (He : (1 # 17592186044416) * H <= 1 # 16).
  { assert (P : (1 # 17592186044416) * H <= (1 # 17592186044416) * 1099511627776)
      by (apply Qmult_le_nonneg_l; [lra | exact HH40]).
    assert (E : (1 # 17592186044416) * 1099511627776 == 1 # 16) by reflexivity.
    lra. }
  split.
  - assert (P : (C + D * q - (1 # 17592186044416)) * H <= s * H)
      by (apply Qmult_le_compat_r; lra).
    lra.
  - assert (P : s * H <= (C + D * q + (1 # 17592186044416)) * H)
      by (apply Qmult_le_compat_r; lra).
    lra.
Qed.

Lemma lerp_near_exact c1 c2 y h :
  is_byte c1 -> is_byte c2 -> (0 <= y < h)%Z -> (h <= 2 ^ 40)%Z ->
  (exact_lerp c1 c2 y h - 1 <= lerp c1 c2 y h <= exact_lerp c1 c2 y h)%Z.
Proof.
  intros H1 H2 Hy Hh.
  destruct (lerp_sum_error c1 c2 y h H1 H2 Hy Hh) as (s & -> & Lo & Hi).
  unfold is_byte in H1, H2. unfold exact_lerp.
  set (N := (c1 * h + (c2 - c1) * y)%Z) in *. set (k := (N / h)%Z).
  assert (HN : (0 <= N)%Z) by (unfold N; nia).
  assert (Hk : (k * h <= N <= (k + 1) * h - 1)%Z).
  { unfold k. pose proof (Z.mul_div_le N h ltac:(lia)).
    pose proof (Z.mul_succ_div_gt N h ltac:(lia)). lia. }
  assert (Hk0 : (0 <= k)%Z) by (unfold k; apply Z.div_pos; lia).
  set (H := inject_Z h) in *.
  assert (HH : 1 <= H) by (unfold H; change 1 with (inject_Z 1); rewrite <- Zle_Qle; lia).
  assert (Hk' : inject_Z k * H <= inject_Z N /\ inject_Z N <= (inject_Z k + 1) * H - 1).
  { assert (A1 : inject_Z (k * h) <= inject_Z N) by (rewrite <- Zle_Qle; lia).
    assert (A2 : inject_Z (N + 1) <= inject_Z ((k + 1) * h)) by (rewrite <- Zle_Qle; lia).
    rewrite inject_Z_mult in A1. rewrite inject_Z_plus, inject_Z_mult, inject_Z_plus in A2.
    change (inject_Z 1) with 1 in A2. fold H in A1, A2. lra. }
  split.
  - pose proof (py_int_floor_le s) as Hf. pose proof (Qlt_floor s) as Hlt.
    assert (Hlow : inject_Z k - 1 < s) by (apply (Qmult_lt_r _ _ H); lra).
    assert (Hz : inject_Z k < inject_Z (Qfloor s + 1 + 1)).
    { rewrite inject_Z_plus in Hlt. rewrite !inject_Z_plus.
      change (inject_Z 1) with 1 in *. lra. }
    rewrite <- Zlt_Qlt in Hz. lia.
  - apply py_int_below; [exact Hk0|].
    rewrite inject_Z_plus. change (inject_Z 1) with 1.
    apply (Qmult_lt_r _ _ H); lra.
Qed.

(** Where the exact interpolation is not an integer the code computes its
    truncation exactly. *)
Lemma lerp_exact_off_grid c1 c2 y h :
  is_byte c1 -> is_byte c2 -> (0 <= y < h)%Z -> (h <= 2 ^ 40)%Z ->
  (((c2 - c1) * y) mod h <> 0)%Z ->
  lerp c1 c2 y h = exact_lerp c1 c2 y h.
Proof.
  intros H1 H2 Hy Hh Hm.
  pose proof (lerp_near_exact c1 c2 y h H1 H2 Hy Hh) as [_ Hup].
  apply Z.le_antisymm; [exact Hup|].
  destruct (lerp_sum_error c1 c2 y h H1 H2 Hy Hh) as (s & -> & Lo & Hi).
  unfold is_byte in H1, H2. unfold exact_lerp.
  set (N := (c1 * h + (c2 - c1) * y)%Z) in *. set (k := (N / h)%Z).
  assert (HNm : (N mod h <> 0)%Z).
  { unfold N. rewrite Z.add_comm, Z_mod_plus_full. exact Hm. }
  assert (Hk : (k * h + 1 <= N)%Z).
  { unfold k. pose proof (Z.div_mod N h ltac:(lia)) as E.
    pose proof (Z.mod_pos_bound N h ltac:(lia)). lia. }
  set (H := inject_Z h) in *.
  assert (HH : 1 <= H) by (unfold H; change 1 with (inject_Z 1); rewrite <- Zle_Qle; lia).
  assert (Hk' : inject_Z k * H + 1 <= inject_Z N).
  { assert (A1 : inject_Z (k * h + 1) <= inject_Z N) by (rewrite <- Zle_Qle; lia).
    rewrite inject_Z_plus, inject_Z_mult in A1. change (inject_Z 1) with 1 in A1.
    fold H in A1. exact A1. }
  assert (Hlow : inject_Z k <= s).
  { apply Qlt_le_weak. apply (Qmult_lt_r _ _ H); lra. }
  pose proof (py_int_floor_le s) as Hf.
  pose proof (Qfloor_resp_le _ _ Hlow) as Hfl. rewrite Qfloor_Z in Hfl. lia.
Qed.

(** In the last row the product [(c2 - c1) * ((h-1) / h)] is computed
    exactly whenever [h] divides [c2 - c1]. *)
Lemma last_row_products :
  forallb (fun h =>
    forallb (fun k =>
      if (Z.abs (k * h) <=? 255)%Z
      then Qeq_bool (RN (inject_Z (k * h) * RN (inject_Z (h - 1) / inject_Z h)))
                    (inject_Z (k * (h - 1)))
      else true) (seqZ (-255) 511)) (seqZ 1 255) = true.
Proof. vm_compute. reflexivity. Qed.

(** The last row is the exact interpolation at [(h-1) / h], truncated. *)
Lemma lerp_last_row c1 c2 h :
  is_byte c1 -> is_byte c2 -> (0 < h <= 2 ^ 40)%Z ->
  lerp c1 c2 (h - 1) h = exact_lerp c1 c2 (h - 1) h.
Proof.
  intros H1 H2 Hh.
  destruct (Z.eq_dec (((c2 - c1) * (h - 1)) mod h)%Z 0%Z) as [Hz|Hnz];
    [|apply lerp_exact_off_grid; auto; lia].
  unfold is_byte in H1, H2.
  assert (Hk : exists k, (c2 - c1 = k * h)%Z).
  { pose proof (Z.div_mod ((c2 - c1) * (h - 1)) h ltac:(lia)) as E. rewrite Hz in E.
    exists (c2 - c1 - (c2 - c1) * (h - 1) / h)%Z. lia. }
  destruct Hk as [k Hk].
  assert (Ex : exact_lerp c1 c2 (h - 1) h = (c1 + k * (h - 1))%Z).
  { unfold exact_lerp. rewrite Hk.
    replace (c1 * h + k * h * (h - 1))%Z with ((c1 + k * (h - 1)) * h)%Z by ring.
    apply Z.div_mul. lia. }
  rewrite Ex.
  assert (Hb : (0 <= c1 + k * (h - 1) <= 255)%Z).
  { destruct (Z_lt_le_dec k 0%Z); nia. }
  assert (Ep : RN (inject_Z (k * h) * RN (inject_Z (h - 1) / inject_Z h))
               == inject_Z (k * (h - 1))).
  { destruct (Z.eq_dec k 0%Z) as [->|Hk0].
    - change (0 * h)%Z with 0%Z. change (0 * (h - 1))%Z with 0%Z.
      change (inject_Z 0) with 0. rewrite RN_zero; [reflexivity | apply Qmult_0_l].
    - assert (Hh255 : (1 <= h <= 255)%Z) by nia.
      assert (Hk255 : (-255 <= k < -255 + 511)%Z) by nia.
      pose proof last_row_products as T.
      rewrite forallb_forall in T.
      specialize (T h ltac:(apply list_elem_of_In, elem_of_seqZ; lia)).
      cbv beta in T. rewrite forallb_forall in T.
      specialize (T k ltac:(apply list_elem_of_In, elem_of_seqZ; lia)).
      cbv beta in T.
      destruct (Z.leb_spec (Z.abs (k * h)) 255); [|lia].
      apply Qeq_bool_iff, T. }
  unfold lerp, lerp_at, fadd, fmul.
  transitivity (py_int (inject_Z (c1 + k * (h - 1)))); [apply py_int_comp | apply py_int_Z].
  rewrite (RN_int c1) by (apply small_int; lia).
  rewrite (RN_int (c2 - c1)) by (apply small_int; lia).
  rewrite Hk.
  rewrite Ep. rewrite <- inject_Z_plus. apply RN_int, small_int. lia.
Qed.

(** Both cases occur: [49 * (1 / 49)] rounds to the float just below 1. *)
Example lerp_49 : lerp 0 49 1 49 = 0%Z /\ exact_lerp 0 49 1 49 = 1%Z.
Proof. split; vm_compute; reflexivity. Qed.

End Exactness.

(** ** The gradient renderer: claims *)

Section GradientClaims.
Import Binary64 Binary64Facts.

Lemma get_row_color ch top bottom y h :
  get ch (row_color top bottom y h) = lerp (get ch top) (get ch bottom) y h.
Proof.
  destruct top as [[r1 g1] b1], bottom as [[r2 g2] b2], ch; reflexivity.
Qed.

Lemma is_color_get ch p : is_color p -> is_byte (get ch p).
Proof. destruct p as [[r g] b], ch; cbn; tauto. Qed.

Lemma color_value_is_color s p : color_value s = Some p -> is_color p.
Proof.
  destruct p as [[r g] b]. intros H.
  destruct (hex_to_rgb_valid s r g b H) as (_ & Hc). exact Hc.
Qed.

Lemma lerp_row0 c1 c2 h : is_byte c1 -> lerp c1 c2 0 h = c1.
Proof.
  intros H1. unfold lerp. apply lerp_at_0.
  - apply small_int. unfold is_byte in H1. lia.
  - rewrite RN_zero; [reflexivity|]. unfold Qdiv. apply Qmult_0_l.
Qed.

Lemma row_color_row0 top bottom h : is_color top -> row_color top bottom 0 h = top.
Proof.
  destruct top as [[r1 g1] b1], bottom as [[r2 g2] b2]. intros (?&?&?).
  cbn. rewrite !lerp_row0 by assumption. reflexivity.
Qed.

Lemma c_int_nonpos n : n <= 0 -> c_int n <= 0.
Proof.
  intros Hn. destruct (Z_lt_le_dec n (- 2 ^ 31)).
  - rewrite c_int_beyond by lia. lia.
  - rewrite c_int_small by lia. exact Hn.
Qed.

(** A width or height that an image can have is one a double can hold. *)
Lemma image_size_in_range n : n < 2 ^ 31 -> n < overflow_bound.
Proof.
  intros Hn. pose proof overflow_bound_large.
  assert (2 ^ 31 < 2 ^ prec) by (unfold prec; lia). lia.
Qed.

(** Inside a canvas of the requested size every pixel of a row below
    [height] takes the row's color. *)
Lemma gradient_pixel_inside width height top bottom c x y :
  is_color top -> is_color bottom ->
  has_size (Z.to_nat width) (Z.to_nat height) c ->
  Z.of_nat x < width -> Z.of_nat y < height ->
  pixel (gradient_canvas width height top bottom c) x y
  = Some (row_color top bottom (Z.of_nat y) height).
Proof.
  intros Ht Hb Hs Hx Hy. rewrite gradient_canvas_pixel.
  destruct (has_size_pixel _ _ c x y Hs ltac:(lia) ltac:(lia)) as [p ->].
  destruct Hs as (_ & _ & Bw & Bh).
  cbn [fmap option_fmap option_map]. f_equal.
  rewrite (c_int_small width) by lia.
  destruct (Z.ltb_spec (Z.of_nat y) height); [|lia].
  destruct (Z.ltb_spec (Z.of_nat y) (2 ^ 31)); [|lia].
  destruct (Z.leb_spec (Z.min 0 width) (Z.of_nat x)); [|lia].
  destruct (Z.leb_spec (Z.of_nat x) (Z.max 0 width)); [|lia].
  cbn [andb]. apply ink_of_color, row_color_is_color; [assumption..|lia].
Qed.

(** The gradient on a canvas of the requested size, with valid colors. *)
Lemma gradient_run_sized width height color_top color_bottom top bottom c :
  0 < width -> 0 < height ->
  color_value color_top = Some top -> color_value color_bottom = Some bottom ->
  has_size (Z.to_nat width) (Z.to_nat height) c ->
  create_gradient_background width height color_top color_bottom c
  = (gradient_canvas width height top bottom c, Ok tt).
Proof.
  intros Hw Hh Ht Hb (_ & _ & Bw & Bh).
  pose proof (image_size_in_range width ltac:(lia)).
  pose proof (image_size_in_range height ltac:(lia)).
  apply gradient_run; [assumption | assumption | lia | lia].
Qed.

(** C1, as the code has it.  For positive width and height and valid
    colors, [create_gradient_background] fills every row [y] of the canvas
    uniformly.  Each channel of the row is a function of that channel of the
    top and bottom colors alone; it is the exact interpolation
    [(c1*h + (c2 - c1)*y) div h] or one less, and it is the exact
    interpolation wherever [(c2 - c1)*y] is not a multiple of [h]. *)
Theorem gradient_rows_interpolated width height color_top color_bottom top bottom c y :
  0 < width -> 0 < height ->
  color_value color_top = Some top -> color_value color_bottom = Some bottom ->
  has_size (Z.to_nat width) (Z.to_nat height) c ->
  Z.of_nat y < height ->
  exists c' p,
    create_gradient_background width height color_top color_bottom c = (c', Ok tt) /\
    has_size (Z.to_nat width) (Z.to_nat height) c' /\
    (forall x, Z.of_nat x < width -> pixel c' x y = Some p) /\
    forall ch,
      get ch p = lerp (get ch top) (get ch bottom) (Z.of_nat y) height /\
      exact_lerp (get ch top) (get ch bottom) (Z.of_nat y) height - 1 <= get ch p /\
      get ch p <= exact_lerp (get ch top) (get ch bottom) (Z.of_nat y) height /\
      (((get ch bottom - get ch top) * Z.of_nat y) mod height <> 0 ->
       get ch p = exact_lerp (get ch top) (get ch bottom) (Z.of_nat y) height).
Proof.
  intros Hw Hh Ht Hb Hs Hy.
  pose proof (color_value_is_color _ _ Ht) as Ct.
  pose proof (color_value_is_color _ _ Hb) as Cb.
  assert (Hh40 : height <= 2 ^ 40) by (destruct Hs as (_ & _ & _ & Bh); lia).
  exists (gradient_canvas width height top bottom c),
         (row_color top bottom (Z.of_nat y) height).
  split; [apply gradient_run_sized; assumption|].
  split; [apply gradient_canvas_size; exact Hs|].
  split; [intros x Hx; apply gradient_pixel_inside; assumption|].
  intros ch. rewrite get_row_color.
  pose proof (is_color_get ch top Ct) as B1. pose proof (is_color_get ch bottom Cb) as B2.
  pose proof (lerp_near_exact _ _ (Z.of_nat y) height B1 B2 ltac:(lia) Hh40) as [Lo Hi].
  split; [reflexivity|]. split; [exact Lo|]. split; [exact Hi|].
  intros Hm. apply lerp_exact_off_grid; auto. lia.
Qed.

(** C3, as the code has it.  With valid colors and a width a double can
    hold, [create_gradient_background] raises nothing when the width or the
    height is zero or negative: a height [<= 0] leaves the image as it was,
    and a width [<= 0] leaves every pixel outside column 0 as it was. *)
Theorem gradient_degenerate_size_draws_nothing width height color_top color_bottom
    top bottom c :
  width <= 0 \/ height <= 0 ->
  Z.abs width < overflow_bound -> height <= overflow_bound ->
  color_value color_top = Some top -> color_value color_bottom = Some bottom ->
  exists c',
    create_gradient_background width height color_top color_bottom c = (c', Ok tt) /\
    (height <= 0 -> c' = c) /\
    (forall x y, (0 < x)%nat -> pixel c' x y = pixel c x y).
Proof.
  intros Hd Hw Hh Ht Hb. exists (gradient_canvas width height top bottom c).
  split; [apply gradient_run; assumption|]. split.
  - intros Hh0. apply list_eq. intros j. unfold gradient_canvas.
    rewrite list_lookup_imap. destruct (c !! j); [|reflexivity].
    cbn [fmap option_fmap option_map].
    destruct (Z.ltb_spec (Z.of_nat j) height); [lia | reflexivity].
  - intros x y Hx. rewrite gradient_canvas_pixel.
    destruct (pixel c x y); [|reflexivity]. cbn [fmap option_fmap option_map]. f_equal.
    destruct (Z.ltb_spec (Z.of_nat y) height); [|reflexivity].
    pose proof (c_int_nonpos width ltac:(lia)).
    destruct (Z.leb_spec (Z.of_nat x) (Z.max 0 (c_int width))); [lia|].
    rewrite andb_false_r. reflexivity.
Qed.

(** C4. Row 0 of the gradient is the top color.  The last row is the
    exact interpolation at [ratio = (height - 1) / height], truncated,
    channel by channel: it lies between the top and the bottom value, and
    falls short of the bottom value by [(c2 - c1) / height] rounded up. *)
Theorem gradient_first_and_last_row width height color_top color_bottom top bottom c :
  0 < width -> 0 < height ->
  color_value color_top = Some top -> color_value color_bottom = Some bottom ->
  has_size (Z.to_nat width) (Z.to_nat height) c ->
  exists c' last,
    create_gradient_background width height color_top color_bottom c = (c', Ok tt) /\
    (forall x, Z.of_nat x < width ->
       pixel c' x 0 = Some top /\ pixel c' x (Z.to_nat (height - 1)) = Some last) /\
    forall ch,
      get ch last = exact_lerp (get ch top) (get ch bottom) (height - 1) height /\
      get ch bottom - get ch last = (get ch bottom - get ch top + height - 1) / height /\
      Z.min (get ch top) (get ch bottom) <= get ch last <= Z.max (get ch top) (get ch bottom).
Proof.
  intros Hw Hh Ht Hb Hs.
  pose proof (color_value_is_color _ _ Ht) as Ct.
  pose proof (color_value_is_color _ _ Hb) as Cb.
  assert (Hh40 : height <= 2 ^ 40) by (destruct Hs as (_ & _ & _ & Bh); lia).
  exists (gradient_canvas width height top bottom c),
         (row_color top bottom (height - 1) height).
  split; [apply gradient_run_sized; assumption|].
  split.
  - intros x Hx. split.
    + rewrite (gradient_pixel_inside width height _ _ c x 0%nat Ct Cb Hs Hx) by lia.
      f_equal. apply row_color_row0, Ct.
    + rewrite (gradient_pixel_inside width height _ _ c x _ Ct Cb Hs Hx) by lia.
      replace (Z.of_nat (Z.to_nat (height - 1))) with (height - 1) by lia. reflexivity.
  - intros ch. rewrite get_row_color.
    pose proof (is_color_get ch top Ct) as B1. pose proof (is_color_get ch bottom Cb) as B2.
    rewrite (lerp_last_row _ _ height B1 B2) by lia.
    split; [reflexivity|].
    pose proof (lerp_between _ _ (height - 1) height B1 B2 ltac:(lia)) as Hbetween.
    rewrite (lerp_last_row _ _ height B1 B2) in Hbetween by lia.
    split; [|exact Hbetween].
    unfold exact_lerp. set (c1 := get ch top). set (c2 := get ch bottom).
    set (q := (c2 - c1 + height - 1) / height).
    assert (Hq : height * q <= c2 - c1 + height - 1 < height * (q + 1)).
    { unfold q. pose proof (Z.mul_div_le (c2 - c1 + height - 1) height Hh).
      pose proof (Z.mul_succ_div_gt (c2 - c1 + height - 1) height Hh). lia. }
    assert (E : (c1 * height + (c2 - c1) * (height - 1)) / height = c2 - q).
    { symmetry. apply (Z.div_unique _ _ _ (height * q - (c2 - c1))); [lia | ring]. }
    rewrite E. lia.
Qed.

(** C6. Down the rows every channel is monotone: non-decreasing when the
    bottom value exceeds the top value, non-increasing when it is smaller. *)
Theorem gradient_channel_monotone width height color_top color_bottom top bottom c
    ch x1 y1 x2 y2 p1 p2 :
  0 < width -> 0 < height ->
  color_value color_top = Some top -> color_value color_bottom = Some bottom ->
  has_size (Z.to_nat width) (Z.to_nat height) c ->
  Z.of_nat x1 < width -> Z.of_nat x2 < width ->
  (y1 <= y2)%nat -> Z.of_nat y2 < height ->
  pixel (create_gradient_background width height color_top color_bottom c).1 x1 y1 = Some p1 ->
  pixel (create_gradient_background width height color_top color_bottom c).1 x2 y2 = Some p2 ->
  (get ch top < get ch bottom -> get ch p1 <= get ch p2) /\
  (get ch bottom < get ch top -> get ch p2 <= get ch p1).
Proof.
  intros Hw Hh Ht Hb Hs Hx1 Hx2 Hy Hy2.
  pose proof (color_value_is_color _ _ Ht) as Ct.
  pose proof (color_value_is_color _ _ Hb) as Cb.
  rewrite (gradient_run_sized width height color_top color_bottom top bottom c Hw Hh Ht Hb Hs).
  cbn [fst].
  rewrite (gradient_pixel_inside width height top bottom c x1 y1 Ct Cb Hs Hx1) by lia.
  rewrite (gradient_pixel_inside width height top bottom c x2 y2 Ct Cb Hs Hx2) by lia.
  intros [= <-] [= <-]. rewrite !get_row_color. unfold lerp.
  pose proof (ratio_mono (Z.of_nat y1) (Z.of_nat y2) height Hh ltac:(lia)) as Hr.
  split; intros Hc.
  - apply lerp_at_mono_up; [lia | exact Hr].
  - apply lerp_at_mono_down; [lia | exact Hr].
Qed.

(** C8. The image after the gradient does not depend on what the canvas
    held before: two runs with the same width, height and colors end with
    the same pixels. *)
Theorem gradient_deterministic width height color_top color_bottom top bottom c c' :
  color_value color_top = Some top -> color_value color_bottom = Some bottom ->
  has_size (Z.to_nat width) (Z.to_nat height) c ->
  has_size (Z.to_nat width) (Z.to_nat height) c' ->
  create_gradient_background width height color_top color_bottom c
  = create_gradient_background width height color_top color_bottom c'.
Proof.
  intros Ht Hb Hs Hs'.
  destruct (Z_lt_le_dec 0 width) as [Hw|Hw];
    [|rewrite (has_size_degenerate _ _ c c' Hs Hs') by lia; reflexivity].
  destruct (Z_lt_le_dec 0 height) as [Hh|Hh];
    [|rewrite (has_size_degenerate _ _ c c' Hs Hs') by lia; reflexivity].
  pose proof (color_value_is_color _ _ Ht) as Ct.
  pose proof (color_value_is_color _ _ Hb) as Cb.
  rewrite !(gradient_run_sized width height color_top color_bottom top bottom)
    by assumption.
  f_equal.
  pose proof (gradient_canvas_size width height top bottom _ _ c Hs) as (L & R & _).
  pose proof (gradient_canvas_size width height top bottom _ _ c' Hs') as (L' & R' & _).
  rewrite Forall_lookup in R, R'.
  apply list_eq. intros y.
  destruct (decide (y < Z.to_nat height)%nat) as [Hy|Hy].
  - destruct (lookup_lt_is_Some_2 (gradient_canvas width height top bottom c) y ltac:(lia))
      as [row Hrow].
    destruct (lookup_lt_is_Some_2 (gradient_canvas width height top bottom c') y ltac:(lia))
      as [row' Hrow'].
    rewrite Hrow, Hrow'. f_equal. apply list_eq. intros x.
    destruct (decide (x < Z.to_nat width)%nat) as [Hx|Hx].
    + pose proof (gradient_pixel_inside width height top bottom c x y Ct Cb Hs
                    ltac:(lia) ltac:(lia)) as P.
      pose proof (gradient_pixel_inside width height top bottom c' x y Ct Cb Hs'
                    ltac:(lia) ltac:(lia)) as P'.
      unfold pixel in P, P'. rewrite Hrow in P. rewrite Hrow' in P'. congruence.
    + rewrite !lookup_ge_None_2; [reflexivity | |].
      * rewrite (R' y row' Hrow'). lia.
      * rewrite (R y row Hrow). lia.
  - rewrite !lookup_ge_None_2; [reflexivity | lia | lia].
Qed.

(** C9. [hex_to_rgb] on six hexadecimal digits, with or without a leading
    [#], returns the bytes of the three digit pairs, in order; each lies in
    [0, 255]. *)
Theorem hex_to_rgb_six_digits d1 d2 d3 d4 d5 d6 r g b :
  byte_of d1 d2 = Some r -> byte_of d3 d4 = Some g -> byte_of d5 d6 = Some b ->
  let digits :=
    String d1 (String d2 (String d3 (String d4 (String d5 (String d6 EmptyString))))) in
  hex_to_rgb digits = Ok (r, g, b) /\
  hex_to_rgb (String "#" digits) = Ok (r, g, b) /\
  0 <= r <= 255 /\ 0 <= g <= 255 /\ 0 <= b <= 255.
Proof.
  intros Hr Hg Hb digits.
  assert (Hv : forall s, color_value s = Some (r, g, b) ->
    hex_to_rgb s = Ok (r, g, b) /\ is_byte r /\ is_byte g /\ is_byte b)
    by (intros s; apply hex_to_rgb_valid).
  assert (H1 : Ascii.eqb d1 "#" = false).
  { unfold byte_of in Hr. destruct (hex_value d1) eqn:E; [|discriminate].
    apply hex_value_digit in E. tauto. }
  destruct (Hv digits) as (E1 & R).
  { unfold color_value, digits. rewrite H1, Hr, Hg, Hb. reflexivity. }
  destruct (Hv (String "#" digits)) as (E2 & _).
  { unfold color_value, digits. rewrite Ascii.eqb_refl, Hr, Hg, Hb. reflexivity. }
  unfold is_byte in R. tauto.
Qed.

End GradientClaims.

(** ** The label compositor and font resolution: claims *)

Section Labels.
Context `{Externals}.

Lemma outline_loops x y s f fill_color outline_color w c :
  draw_text_with_outline (x, y) s f fill_color outline_color w c
  = (for_each (halo_offsets w) (halo_draw x y s f outline_color) ;;;
     let* ink := lift (hex_to_rgb fill_color) in
     draw_text (x, y) s f ink) c.
Proof.
  unfold draw_text_with_outline. unfold bindM at 1. unfold bindM at 3.
  rewrite for_each_nested.
  rewrite (for_each_ext _ _
    (fun d => if decide (d <> (0, 0)) then halo_draw x y s f outline_color d else ret tt)).
  - unfold halo_offsets. rewrite for_each_filter. reflexivity.
  - intros [dx dy] c'. cbn [fst snd].
    destruct (Z.eqb_spec dx 0) as [->|Hx]; destruct (Z.eqb_spec dy 0) as [->|Hy]; cbn [negb orb];
      destruct (decide ((_, _) <> (0, 0))) as [Hd|Hd]; try reflexivity;
      solve [ contradiction | exfalso; apply Hd; congruence ].
Qed.

Lemma halo_offsets_spec w dx dy :
  (dx, dy) ∈ halo_offsets w <->
  - w <= dx <= w /\ - w <= dy <= w /\ (dx, dy) <> (0, 0).
Proof.
  unfold halo_offsets, py_range.
  rewrite list_elem_of_filter, list_elem_of_cprod, !elem_of_seqZ. cbn [fst snd].
  intuition lia.
Qed.

Lemma halo_offsets_NoDup w : NoDup (halo_offsets w).
Proof.
  unfold halo_offsets, py_range. apply NoDup_filter, NoDup_cprod; apply NoDup_seqZ.
Qed.

Lemma halo_offsets_length w :
  0 <= w -> Z.of_nat (length (halo_offsets w)) = (2 * w + 1) ^ 2 - 1.
Proof.
  intros Hw. unfold halo_offsets, py_range.
  replace (w + 1 - - w) with (2 * w + 1) by lia.
  assert (Hin : (0, 0) ∈ cprod (seqZ (- w) (2 * w + 1)) (seqZ (- w) (2 * w + 1))).
  { apply list_elem_of_cprod. cbn [fst snd]. rewrite elem_of_seqZ. lia. }
  pose proof (length_filter_remove (0, 0) _
                (NoDup_cprod _ _ (NoDup_seqZ (- w) (2 * w + 1)) (NoDup_seqZ (- w) (2 * w + 1)))
                Hin) as E.
  rewrite length_cprod, !length_seqZ in E.
  apply (f_equal Z.of_nat) in E.
  rewrite Nat2Z.inj_succ, Nat2Z.inj_mul, Z2Nat.id in E by lia.
  rewrite Z.pow_2_r. lia.
Qed.

Lemma halo_offsets_nil w : w <= 0 -> halo_offsets w = [].
Proof.
  intros Hw. unfold halo_offsets, py_range.
  destruct (Z.eq_dec w 0) as [->|Hne]; [reflexivity|].
  rewrite (seqZ_nil (- w)) by lia. reflexivity.
Qed.

(** A draw that raises leaves the image as it was. *)
Lemma draw_text_raises xy s f ink c e :
  text c xy s f ink = Raise e -> draw_text xy s f ink c = (c, Raise e).
Proof. intros E. unfold draw_text. rewrite E. reflexivity. Qed.

Lemma for_each_all_raise {A} (l : list A) (body : A -> M unit) c :
  (forall a c', exists e, body a c' = (c', Raise e)) ->
  exists r, for_each l body c = (c, r).
Proof.
  intros Hb. destruct l as [|a l]; [exists (Ok tt); reflexivity|].
  destruct (Hb a c) as [e He]. exists (Raise e).
  cbn [for_each]. unfold bindM. rewrite He. reflexivity.
Qed.

Lemma stamp_of_unrenderable_text position s f fill_color outline_color w c :
  (forall c' xy ink, exists e, text c' xy s f ink = Raise e) ->
  exists e,
    draw_text_with_outline position s f fill_color outline_color w c = (c, Raise e).
Proof.
  intros Hfail. destruct position as [x y]. rewrite outline_loops.
  assert (Hdraw : forall xy ink c', exists e, draw_text xy s f ink c' = (c', Raise e)).
  { intros xy ink c'. destruct (Hfail c' xy ink) as [e He].
    exists e. apply draw_text_raises, He. }
  destruct (for_each_all_raise (halo_offsets w) (halo_draw x y s f outline_color) c)
    as [r Hr].
  { intros d c'. unfold halo_draw, bindM, lift.
    destruct (hex_to_rgb outline_color) as [ink|e]; [apply Hdraw | eauto]. }
  unfold bindM at 1. rewrite Hr. destruct r as [[]|e]; [|eauto].
  unfold bindM, lift. destruct (hex_to_rgb fill_color) as [ink|e]; [apply Hdraw | eauto].
Qed.

(** C2. With a radius [w >= 0] the text is drawn in the outline color at
    the anchor shifted by each offset of [halo_offsets w], and then once in
    the fill color at the anchor itself.  The offsets are the
    [(2w+1)^2 - 1] pairs [(dx, dy)] with [dx, dy] in [[-w, w]] other than
    [(0, 0)], each exactly once.  With [w = 0] only the fill draw is made. *)
Theorem outline_is_filled_square_then_fill x y s f fill_color outline_color w
    outline fill c :
  0 <= w ->
  hex_to_rgb outline_color = Ok outline -> hex_to_rgb fill_color = Ok fill ->
  draw_text_with_outline (x, y) s f fill_color outline_color w c
  = (for_each (halo_offsets w) (fun d => draw_text (x + d.1, y + d.2) s f outline) ;;;
     draw_text (x, y) s f fill) c /\
  Z.of_nat (length (halo_offsets w)) = (2 * w + 1) ^ 2 - 1 /\
  NoDup (halo_offsets w) /\
  (forall dx dy, (dx, dy) ∈ halo_offsets w <->
                 - w <= dx <= w /\ - w <= dy <= w /\ (dx, dy) <> (0, 0)) /\
  (w = 0 ->
   draw_text_with_outline (x, y) s f fill_color outline_color w c
   = draw_text (x, y) s f fill c).
Proof.
  intros Hw Ho Hf.
  assert (E : draw_text_with_outline (x, y) s f fill_color outline_color w c
    = (for_each (halo_offsets w) (fun d => draw_text (x + d.1, y + d.2) s f outline) ;;;
       draw_text (x, y) s f fill) c).
  { rewrite outline_loops. unfold bindM at 1 3.
    rewrite (for_each_ext _ (halo_draw x y s f outline_color)
               (fun d => draw_text (x + d.1, y + d.2) s f outline)).
    - destruct (for_each _ _ c) as [c' [[]|e]]; [|reflexivity].
      unfold bindM, lift. rewrite Hf. reflexivity.
    - intros d c'. unfold halo_draw, bindM, lift. rewrite Ho. reflexivity. }
  split; [exact E|].
  split; [apply halo_offsets_length, Hw|].
  split; [apply halo_offsets_NoDup|].
  split; [apply halo_offsets_spec|].
  intros ->. rewrite E. reflexivity.
Qed.

(** C10. A negative outline width draws no outline: the only draw is the
    fill draw at the anchor, exactly as with width 0, whatever the outline
    color is. *)
Theorem negative_outline_width_draws_fill_only x y s f fill_color outline_color w c :
  w < 0 ->
  halo_offsets w = [] /\
  draw_text_with_outline (x, y) s f fill_color outline_color w c
  = (let* ink := lift (hex_to_rgb fill_color) in draw_text (x, y) s f ink) c /\
  draw_text_with_outline (x, y) s f fill_color outline_color w c
  = draw_text_with_outline (x, y) s f fill_color outline_color 0 c.
Proof.
  intros Hw.
  assert (E : forall w', w' <= 0 ->
    draw_text_with_outline (x, y) s f fill_color outline_color w' c
    = (let* ink := lift (hex_to_rgb fill_color) in draw_text (x, y) s f ink) c).
  { intros w' Hw'. rewrite outline_loops, halo_offsets_nil by exact Hw'. reflexivity. }
  split; [apply halo_offsets_nil; lia|].
  split; [apply E; lia|].
  rewrite !E by lia. reflexivity.
Qed.


(** C7. [get_font] never raises.  It returns the font of the first
    candidate path that exists and loads, and the built-in default font
    when there is none. *)
Theorem get_font_never_raises size bold :
  get_font size bold
  = Ok (default load_default (head (omap (usable size) (font_paths bold)))).
Proof.
  unfold get_font, font_options, font_paths, usable.
  destruct bold; cbn [get_font_loop truthy andb omap list_omap head default];
    repeat (destruct (path_exists _); cbn [andb];
            [destruct (truetype _ size); cbn [omap list_omap head default]|]);
    reflexivity.
Qed.

End Labels.

(** ** The model at concrete inputs *)

Lemma blank_has_size w h p :
  Z.of_nat w < 2 ^ 31 -> Z.of_nat h < 2 ^ 31 -> has_size w h (blank w h p).
Proof.
  intros Hw Hh. split; [apply length_replicate|]. split; [|split; assumption].
  apply Forall_replicate. apply length_replicate.
Qed.

Example gradient_2x4 :
  (create_gradient_background 2 4 "#000000" "#FF8040" (blank 2 4 (9, 9, 9))).1
  = [ [(0, 0, 0); (0, 0, 0)];
      [(63, 32, 16); (63, 32, 16)];
      [(127, 64, 32); (127, 64, 32)];
      [(191, 96, 48); (191, 96, 48)] ].
Proof. vm_compute. reflexivity. Qed.

Example outline_radius_1 :
  (@draw_text_with_outline anchor_world (1, 1) "Rx" tt "#FFFFFF" "#000001" 1
     (blank 3 3 (9, 9, 9))).1
  = [ [(0, 0, 1); (0, 0, 1); (0, 0, 1)];
      [(0, 0, 1); (255, 255, 255); (0, 0, 1)];
      [(0, 0, 1); (0, 0, 1); (0, 0, 1)] ].
Proof. vm_compute. reflexivity. Qed.

(** C3, as the spec states it, fails: with width and height 0 nothing is
    raised, and the image comes back as it was; with width 0 and height 2
    nothing is raised either. *)
Lemma gradient_zero_size_returns :
  create_gradient_background 0 0 WHITE LIGHT_BLUE [] = ([], Ok tt) /\
  create_gradient_background 0 2 WHITE LIGHT_BLUE (blank 1 2 (9, 9, 9))
  = ([ [(255, 255, 255)]; [(173, 209, 255)] ], Ok tt).
Proof. split; vm_compute; reflexivity. Qed.

(** C1, as the spec states it, fails: in row 1 of a gradient of 49 rows
    from [#000000] to [#310000] the red channel is 0, while the exact
    interpolation [49 * 1 / 49] is 1. *)
Lemma gradient_row_below_exact_interpolation :
  color_value "#000000" = Some (0, 0, 0) /\ color_value "#310000" = Some (49, 0, 0) /\
  has_size (Z.to_nat 1) (Z.to_nat 49) (blank 1 49 (9, 9, 9)) /\
  pixel (create_gradient_background 1 49 "#000000" "#310000" (blank 1 49 (9, 9, 9))).1 0 1
  = Some (0, 0, 0) /\
  exact_lerp 0 49 1 49 = 1.
Proof.
  split; [reflexivity|]. split; [reflexivity|].
  split; [apply blank_has_size; lia|].
  split; vm_compute; reflexivity.
Qed.

Lemma gradient_rows_interpolated_witness :
  (0 < 2 /\ 0 < 3) /\
  color_value "#102030" = Some (16, 32, 48) /\
  color_value "ffFFff" = Some (255, 255, 255) /\
  has_size (Z.to_nat 2) (Z.to_nat 3) (blank 2 3 (9, 9, 9)) /\
  Z.of_nat 1 < 3 /\
  exists c' p,
    create_gradient_background 2 3 "#102030" "ffFFff" (blank 2 3 (9, 9, 9)) = (c', Ok tt) /\
    has_size (Z.to_nat 2) (Z.to_nat 3) c' /\
    (forall x, Z.of_nat x < 2 -> pixel c' x 1 = Some p) /\
    forall ch,
      get ch p = lerp (get ch (16, 32, 48)) (get ch (255, 255, 255)) (Z.of_nat 1) 3 /\
      exact_lerp (get ch (16, 32, 48)) (get ch (255, 255, 255)) (Z.of_nat 1) 3 - 1
      <= get ch p /\
      get ch p <= exact_lerp (get ch (16, 32, 48)) (get ch (255, 255, 255)) (Z.of_nat 1) 3 /\
      (((get ch (255, 255, 255) - get ch (16, 32, 48)) * Z.of_nat 1) mod 3 <> 0 ->
       get ch p = exact_lerp (get ch (16, 32, 48)) (get ch (255, 255, 255)) (Z.of_nat 1) 3).
Proof.
  split; [lia|]. split; [reflexivity|]. split; [reflexivity|].
  split; [apply blank_has_size; lia|]. split; [lia|].
  apply (gradient_rows_interpolated 2 3 "#102030" "ffFFff" (16, 32, 48) (255, 255, 255)
           (blank 2 3 (9, 9, 9)) 1);
    [lia | lia | reflexivity | reflexivity | apply blank_has_size; lia | lia].
Defined.

Lemma gradient_degenerate_size_witness :
  (-3 <= 0 \/ 2 <= 0) /\
  Z.abs (-3) < Binary64.overflow_bound /\ 2 <= Binary64.overflow_bound /\
  exists c',
    create_gradient_background (-3) 2 WHITE DARK_BLUE (blank 2 2 (9, 9, 9)) = (c', Ok tt) /\
    (2 <= 0 -> c' = blank 2 2 (9, 9, 9)) /\
    (forall x y, (0 < x)%nat -> pixel c' x y = pixel (blank 2 2 (9, 9, 9)) x y).
Proof.
  assert (Hw : Z.abs (-3) < Binary64.overflow_bound) by (apply image_size_in_range; lia).
  assert (Hh : 2 <= Binary64.overflow_bound)
    by (pose proof (image_size_in_range 2 ltac:(lia)); lia).
  split; [left; lia|]. split; [exact Hw|]. split; [exact Hh|].
  apply (gradient_degenerate_size_draws_nothing (-3) 2 WHITE DARK_BLUE
           (255, 255, 255) (30, 91, 184) (blank 2 2 (9, 9, 9)));
    [left; lia | exact Hw | exact Hh | reflexivity | reflexivity].
Defined.

Lemma gradient_first_and_last_row_witness :
  (0 < 2 /\ 0 < 3) /\
  has_size (Z.to_nat 2) (Z.to_nat 3) (blank 2 3 (9, 9, 9)) /\
  exists c' last,
    create_gradient_background 2 3 LIGHT_BLUE DARK_BLUE (blank 2 3 (9, 9, 9)) = (c', Ok tt) /\
    (forall x, Z.of_nat x < 2 ->
       pixel c' x 0 = Some (91, 163, 255) /\ pixel c' x (Z.to_nat (3 - 1)) = Some last) /\
    forall ch,
      get ch last = exact_lerp (get ch (91, 163, 255)) (get ch (30, 91, 184)) (3 - 1) 3 /\
      get ch (30, 91, 184) - get ch last
      = (get ch (30, 91, 184) - get ch (91, 163, 255) + 3 - 1) / 3 /\
      Z.min (get ch (91, 163, 255)) (get ch (30, 91, 184)) <= get ch last
      <= Z.max (get ch (91, 163, 255)) (get ch (30, 91, 184)).
Proof.
  split; [lia|]. split; [apply blank_has_size; lia|].
  apply (gradient_first_and_last_row 2 3 LIGHT_BLUE DARK_BLUE (91, 163, 255) (30, 91, 184)
           (blank 2 3 (9, 9, 9)));
    [lia | lia | reflexivity | reflexivity | apply blank_has_size; lia].
Defined.

Lemma gradient_channel_monotone_witness :
  pixel (create_gradient_background 1 2 "#000000" "#FF0000" (blank 1 2 (9, 9, 9))).1
        0 0 = Some (0, 0, 0) /\
  pixel (create_gradient_background 1 2 "#000000" "#FF0000" (blank 1 2 (9, 9, 9))).1
        0 1 = Some (127, 0, 0) /\
  (get Red (0, 0, 0) < get Red (255, 0, 0) -> get Red (0, 0, 0) <= get Red (127, 0, 0)) /\
  (get Red (255, 0, 0) < get Red (0, 0, 0) -> get Red (127, 0, 0) <= get Red (0, 0, 0)).
Proof.
  split; [vm_compute; reflexivity|]. split; [vm_compute; reflexivity|].
  apply (gradient_channel_monotone 1 2 "#000000" "#FF0000" (0, 0, 0) (255, 0, 0)
           (blank 1 2 (9, 9, 9)) Red 0 0 0 1 (0, 0, 0) (127, 0, 0));
    [lia | lia | reflexivity | reflexivity | apply blank_has_size; lia | lia | lia | lia | lia
    | vm_compute; reflexivity | vm_compute; reflexivity].
Defined.

Lemma gradient_deterministic_witness :
  has_size (Z.to_nat 2) (Z.to_nat 2) (blank 2 2 (9, 9, 9)) /\
  has_size (Z.to_nat 2) (Z.to_nat 2) (blank 2 2 (0, 200, 0)) /\
  create_gradient_background 2 2 WHITE LIGHT_BLUE (blank 2 2 (9, 9, 9))
  = create_gradient_background 2 2 WHITE LIGHT_BLUE (blank 2 2 (0, 200, 0)).
Proof.
  split; [apply blank_has_size; lia|]. split; [apply blank_has_size; lia|].
  apply (gradient_deterministic 2 2 WHITE LIGHT_BLUE (255, 255, 255) (91, 163, 255));
    [reflexivity | reflexivity | apply blank_has_size; lia | apply blank_has_size; lia].
Defined.

Lemma hex_to_rgb_six_digits_witness :
  byte_of "2" "E" = Some 46 /\ byte_of "7" "C" = Some 124 /\ byte_of "e" "e" = Some 238 /\
  hex_to_rgb "2E7Cee" = Ok (46, 124, 238) /\
  hex_to_rgb "#2E7Cee" = Ok (46, 124, 238) /\
  0 <= 46 <= 255 /\ 0 <= 124 <= 255 /\ 0 <= 238 <= 255.
Proof.
  split; [reflexivity|]. split; [reflexivity|]. split; [reflexivity|].
  apply (hex_to_rgb_six_digits "2" "E" "7" "C" "e" "e" 46 124 238); reflexivity.
Defined.

Lemma outline_is_filled_square_then_fill_witness :
  0 <= 2 /\
  hex_to_rgb DARK_BLUE = Ok (30, 91, 184) /\ hex_to_rgb WHITE = Ok (255, 255, 255) /\
  Z.of_nat (length (halo_offsets 2)) = (2 * 2 + 1) ^ 2 - 1 /\
  NoDup (halo_offsets 2).
Proof.
  split; [lia|]. split; [reflexivity|]. split; [reflexivity|].
  pose proof (@outline_is_filled_square_then_fill anchor_world 4 4 "Rx" tt WHITE DARK_BLUE 2
                (30, 91, 184) (255, 255, 255) (blank 9 9 (9, 9, 9))
                ltac:(lia) eq_refl eq_refl) as (_ & Hlen & Hnd & _).
  split; [exact Hlen | exact Hnd].
Defined.

Lemma negative_outline_width_witness :
  -2 < 0 /\
  halo_offsets (-2) = [] /\
  @draw_text_with_outline anchor_world (1, 1) "Rx" tt WHITE "not a color" (-2)
    (blank 3 3 (9, 9, 9))
  = @draw_text_with_outline anchor_world (1, 1) "Rx" tt WHITE "not a color" 0
      (blank 3 3 (9, 9, 9)).
Proof.
  split; [lia|].
  pose proof (@negative_outline_width_draws_fill_only anchor_world 1 1 "Rx" tt WHITE
                "not a color" (-2) (blank 3 3 (9, 9, 9)) ltac:(lia)) as (Hnil & _ & Heq).
  split; [exact Hnil | exact Heq].
Defined.


(** * Further properties of the code *)

(** ** What [hex_to_rgb] accepts and returns *)

Lemma digit16_range c d : digit16 c = Some d -> 0 <= d < 16.
Proof.
  unfold digit16. destruct (digit_value c) as [v|] eqn:E; [|discriminate].
  destruct (Z.ltb_spec v 16); [|discriminate]. intros [= <-].
  unfold digit_value in E.
  repeat match type of E with
         | (if ?b then _ else _) = _ => destruct b eqn:?
         end; try discriminate; injection E as <-; lia.
Qed.

Lemma scan_digits_bound s : forall acc pu v rest,
  scan_digits acc pu s = Some (v, rest) -> 0 <= acc ->
  acc <= v /\ v < (acc + 1) * 16 ^ Z.of_nat (String.length s).
Proof.
  induction s as [|c s IH]; intros acc pu v rest H Hacc.
  - cbn in H. destruct pu; [discriminate|]. injection H as <- <-. cbn. lia.
  - cbn [scan_digits] in H. cbn [String.length]. rewrite Nat2Z.inj_succ, Z.pow_succ_r by lia.
    assert (Hp : 0 < 16 ^ Z.of_nat (String.length s)) by (apply Z.pow_pos_nonneg; lia).
    destruct (digit16 c) as [d|] eqn:Ed.
    + apply digit16_range in Ed. apply IH in H; [|lia]. nia.
    + destruct (Ascii.eqb c "_").
      * destruct pu; [discriminate|]. apply IH in H; [|lia]. nia.
      * destruct pu; [discriminate|]. injection H as <- <-. nia.
Qed.

Lemma skip_space_length s : (String.length (skip_space s) <= String.length s)%nat.
Proof.
  induction s as [|c s IH]; [reflexivity|]. cbn [skip_space].
  destruct (is_space c); cbn [String.length]; lia.
Qed.

Lemma skip_prefix16_length s : (String.length (skip_prefix16 s) <= String.length s)%nat.
Proof.
  unfold skip_prefix16. destruct s as [|c0 [|c1 s']]; try reflexivity.
  destruct (_ && _); [|reflexivity].
  destruct s' as [|c2 s'']; cbn [String.length]; [lia|].
  destruct (Ascii.eqb c2 "_"); cbn [String.length]; lia.
Qed.

(** What [int(s, 16)] can return on a string of [n] characters. *)
Lemma int16_range s v :
  int16 s = Ok v ->
  - 16 ^ (Z.of_nat (String.length s) - 1) < v < 16 ^ Z.of_nat (String.length s).
Proof.
  unfold int16. pose proof (skip_space_length s) as Hs.
  destruct (parse_sign (skip_space s)) as [negative s1] eqn:Ep.
  pose proof (skip_prefix16_length s1) as Hp.
  destruct (skip_prefix16 s1) as [|c s2] eqn:E2; [discriminate|].
  destruct (digit16 c); [|discriminate].
  destruct (scan_digits 0 false (String c s2)) as [[v' rest]|] eqn:Es; [|discriminate].
  destruct (skip_space rest); [|discriminate]. intros [= <-].
  apply scan_digits_bound in Es; [|lia].
  set (n := String.length s) in *. set (n2 := String.length (String c s2)) in *.
  assert (Hn2 : (1 <= n2)%nat) by (unfold n2; cbn; lia).
  assert (H1 : ((if negative then S (String.length s1) else String.length s1)
                <= String.length (skip_space s))%nat).
  { unfold parse_sign in Ep. destruct (skip_space s) as [|a t]; [injection Ep as <- <-; cbn; lia|].
    destruct (Ascii.eqb a "+"); [injection Ep as <- <-; cbn; lia|].
    destruct (Ascii.eqb a "-"); injection Ep as <- <-; cbn; lia. }
  assert (Hmono : forall a b : nat, (a <= b)%nat -> 16 ^ Z.of_nat a <= 16 ^ Z.of_nat b)
    by (intros; apply Z.pow_le_mono_r; lia).
  destruct negative.
  - assert (n2 <= n - 1)%nat by lia.
    pose proof (Hmono n2 (n - 1)%nat ltac:(lia)).
    replace (Z.of_nat n - 1) with (Z.of_nat (n - 1)) by lia.
    pose proof (Hmono (n - 1)%nat n ltac:(lia)).
    assert (0 < 16 ^ Z.of_nat n) by (apply Z.pow_pos_nonneg; lia). lia.
  - pose proof (Hmono n2 n ltac:(lia)).
    assert (0 < 16 ^ (Z.of_nat n - 1)) by (apply Z.pow_pos_nonneg; lia). lia.
Qed.

Lemma int16_raises s e : int16 s = Raise e -> e = ValueError.
Proof.
  unfold int16. destruct (parse_sign (skip_space s)) as [negative s1].
  destruct (skip_prefix16 s1) as [|c s2]; [congruence|].
  destruct (digit16 c); [|congruence].
  destruct (scan_digits 0 false (String c s2)) as [[v' rest]|]; [|congruence].
  destruct (skip_space rest); congruence.
Qed.

Lemma substring_length n m s : (String.length (substring n m s) <= m)%nat.
Proof.
  revert n m. induction s as [|c s IH]; intros n m.
  - destruct n, m; cbn; lia.
  - destruct n; [destruct m|]; cbn [substring String.length]; [lia | |apply IH].
    specialize (IH 0%nat m). lia.
Qed.

Lemma slice_range n s v : int16 (substring n 2 s) = Ok v -> -15 <= v <= 255.
Proof.
  intros H. apply int16_range in H. pose proof (substring_length n 2 s) as Hl.
  assert (Hup : 16 ^ Z.of_nat (String.length (substring n 2 s)) <= 16 ^ 2)
    by (apply Z.pow_le_mono_r; lia).
  assert (Hlo : 16 ^ (Z.of_nat (String.length (substring n 2 s)) - 1) <= 16 ^ 1).
  { destruct (String.length (substring n 2 s)) as [|[|[|k]]]; try lia; cbn; lia. }
  change (16 ^ 2) with 256 in Hup. change (16 ^ 1) with 16 in Hlo. lia.
Qed.

Lemma hex_to_rgb_cases s :
  hex_to_rgb s = Raise ValueError \/
  exists r g b, hex_to_rgb s = Ok (r, g, b) /\
                -15 <= r <= 255 /\ -15 <= g <= 255 /\ -15 <= b <= 255.
Proof.
  unfold hex_to_rgb. set (t := lstrip "#" s).
  destruct (int16 (substring 0 2 t)) as [r|e] eqn:Er;
    [|left; cbn; f_equal; eapply int16_raises; eassumption].
  destruct (int16 (substring 2 2 t)) as [g|e] eqn:Eg;
    [|left; cbn; f_equal; eapply int16_raises; eassumption].
  destruct (int16 (substring 4 2 t)) as [b|e] eqn:Eb;
    [|left; cbn; f_equal; eapply int16_raises; eassumption].
  right. exists r, g, b. cbn. split; [reflexivity|].
  split; [|split]; eapply slice_range; eassumption.
Qed.

Lemma lstrip_hashes n s : lstrip "#" (Nat.iter n (String "#") s) = lstrip "#" s.
Proof.
  induction n as [|n IH]; [reflexivity|].
  cbn [Nat.iter]. transitivity (lstrip "#" (Nat.iter n (String "#") s)); [|exact IH].
  reflexivity.
Qed.

Lemma substring_short n m s : (String.length s <= n)%nat -> substring n m s = EmptyString.
Proof.
  revert n. induction s as [|c s IH]; intros n Hn.
  - destruct n, m; reflexivity.
  - destruct n as [|n]; [cbn in Hn; lia|]. cbn [substring]. apply IH. cbn in Hn. lia.
Qed.

(** X6. Whatever string it is given, [hex_to_rgb] raises [ValueError] or
    returns three integers between -15 and 255: a digit pair is at most
    [ff], and a signed single digit such as [-f] is accepted. *)
Theorem hex_to_rgb_raises_or_bounded s :
  hex_to_rgb s = Raise ValueError \/
  exists r g b, hex_to_rgb s = Ok (r, g, b) /\
                -15 <= r <= 255 /\ -15 <= g <= 255 /\ -15 <= b <= 255.
Proof. apply hex_to_rgb_cases. Qed.

(** X7. Any number of leading [#] and anything after the sixth digit are
    ignored: the color is that of the six digits. *)
Theorem hex_to_rgb_ignores_extra d1 d2 d3 d4 d5 d6 r g b n rest :
  byte_of d1 d2 = Some r -> byte_of d3 d4 = Some g -> byte_of d5 d6 = Some b ->
  hex_to_rgb
    (Nat.iter n (String "#")
       (String d1 (String d2 (String d3 (String d4 (String d5 (String d6 rest)))))))
  = Ok (r, g, b).
Proof.
  intros Hr Hg Hb. unfold hex_to_rgb. rewrite lstrip_hashes.
  assert (H1 : Ascii.eqb d1 "#" = false).
  { unfold byte_of in Hr. destruct (hex_value d1) eqn:E; [|discriminate].
    apply hex_value_digit in E. tauto. }
  cbn [lstrip]. rewrite H1. cbn [substring].
  replace (substring 0 0 rest) with EmptyString by (destruct rest; reflexivity).
  replace (substring 0 0 (String d3 (String d4 (String d5 (String d6 rest)))))
    with EmptyString by reflexivity.
  replace (substring 0 0 (String d5 (String d6 rest))) with EmptyString by reflexivity.
  rewrite (int16_byte _ _ _ Hr). cbn [bindR].
  rewrite (int16_byte _ _ _ Hg). cbn [bindR].
  rewrite (int16_byte _ _ _ Hb). reflexivity.
Qed.

(** X8. A string with fewer than five characters after its leading [#]
    has no third digit pair: [hex_to_rgb] raises [ValueError]. *)
Theorem hex_to_rgb_short_raises s :
  (String.length (lstrip "#" s) <= 4)%nat -> hex_to_rgb s = Raise ValueError.
Proof.
  intros Hl. unfold hex_to_rgb.
  destruct (int16 (substring 0 2 (lstrip "#" s))) as [r|e] eqn:Er;
    [|cbn; f_equal; eapply int16_raises; eassumption].
  destruct (int16 (substring 2 2 (lstrip "#" s))) as [g|e] eqn:Eg;
    [|cbn; f_equal; eapply int16_raises; eassumption].
  rewrite (substring_short 4 2 _ Hl). reflexivity.
Qed.

(** ** The gradient on every input *)

Section GradientEverywhere.
Import Binary64 Binary64Facts.

(** What [create_gradient_background] does, on every input: a color that
    does not parse raises before anything is drawn; so does, in the first
    row, a width beyond the doubles; otherwise the rows are painted, up to
    the first one whose number is beyond the doubles. *)
Lemma gradient_cases width height color_top color_bottom c :
  (exists top bottom,
     hex_to_rgb color_top = Ok top /\ hex_to_rgb color_bottom = Ok bottom /\
     create_gradient_background width height color_top color_bottom c
     = if (0 <? height) && (overflow_bound <=? Z.abs width)
       then (c, Raise ValueError)
       else (gradient_canvas width height top bottom c,
             if height <=? overflow_bound then Ok tt else Raise ValueError)) \/
  ((hex_to_rgb color_top = Raise ValueError \/ hex_to_rgb color_bottom = Raise ValueError) /\
   create_gradient_background width height color_top color_bottom c
   = (c, Raise ValueError)).
Proof.
  destruct (hex_to_rgb_cases color_top) as [E|(r1 & g1 & b1 & E & R1 & G1 & B1)].
  { right. split; [left; exact E|].
    unfold create_gradient_background, bindM, lift. rewrite E. reflexivity. }
  destruct (hex_to_rgb_cases color_bottom) as [E'|(r2 & g2 & b2 & E' & R2 & G2 & B2)].
  { right. split; [right; exact E'|].
    unfold create_gradient_background. unfold bindM at 1. unfold lift at 1. rewrite E.
    unfold bindM, lift. rewrite E'. reflexivity. }
  left. exists (r1, g1, b1), (r2, g2, b2).
  split; [exact E|]. split; [exact E'|].
  unfold create_gradient_background.
  unfold bindM at 1. unfold lift at 1. rewrite E.
  unfold bindM at 1. unfold lift at 1. rewrite E'.
  apply gradient_loop; lia.
Qed.

Lemma fill_span_idem lo hi ink row :
  fill_span lo hi ink (fill_span lo hi ink row) = fill_span lo hi ink row.
Proof.
  apply list_eq. intros x. unfold fill_span. rewrite !list_lookup_imap.
  destruct (row !! x); cbn [fmap option_fmap option_map]; [|reflexivity].
  destruct ((lo <=? Z.of_nat x) && (Z.of_nat x <=? hi)); reflexivity.
Qed.

Lemma gradient_canvas_idem width height top bottom c :
  gradient_canvas width height top bottom (gradient_canvas width height top bottom c)
  = gradient_canvas width height top bottom c.
Proof.
  apply list_eq. intros j. unfold gradient_canvas. rewrite !list_lookup_imap.
  destruct (c !! j); cbn [fmap option_fmap option_map]; [|reflexivity].
  destruct ((Z.of_nat j <? height) && (Z.of_nat j <? 2 ^ 31)); [|reflexivity].
  rewrite fill_span_idem. reflexivity.
Qed.


(** X18. A width whose magnitude no double can hold, [2^1024 - 2^970] or
    more, makes the first [draw.line] raise [ValueError]: with colors that
    parse and at least one row, [create_gradient_background] raises and
    draws nothing. *)
Theorem gradient_width_beyond_doubles_raises width height color_top color_bottom
    top bottom c :
  hex_to_rgb color_top = Ok top -> hex_to_rgb color_bottom = Ok bottom ->
  0 < height -> overflow_bound <= Z.abs width ->
  create_gradient_background width height color_top color_bottom c
  = (c, Raise ValueError).
Proof.
  intros Et Eb Hh Hw.
  destruct (gradient_cases width height color_top color_bottom c)
    as [(top' & bottom' & _ & _ & E)|[_ E]]; [|exact E].
  rewrite E. destruct (Z.ltb_spec 0 height); [|lia].
  destruct (Z.leb_spec overflow_bound (Z.abs width)); [reflexivity | lia].
Qed.

(** X3. On an image, with a width from 0 up to the largest C [int], the
    gradient touches rows [0 .. height-1] and columns [0 .. width] only,
    column [width] included: on an image wider than [width] one column
    more than [width] is painted, and every other pixel keeps its color. *)
Theorem gradient_frame width height color_top color_bottom top bottom w h c x y p :
  0 <= width < 2 ^ 31 -> height <= overflow_bound ->
  color_value color_top = Some top -> color_value color_bottom = Some bottom ->
  has_size w h c ->
  pixel c x y = Some p ->
  pixel (create_gradient_background width height color_top color_bottom c).1 x y
  = Some (if (Z.of_nat y <? height) && (Z.of_nat x <=? width)
          then row_color top bottom (Z.of_nat y) height
          else p).
Proof.
  intros Hw Hh Ht Hb (L & _ & _ & Bh) Hp.
  pose proof (image_size_in_range width ltac:(lia)).
  rewrite (gradient_run width height color_top color_bottom top bottom c Ht Hb)
    by lia.
  cbn [fst]. rewrite gradient_canvas_pixel, Hp. cbn [fmap option_fmap option_map]. f_equal.
  assert (Hy : Z.of_nat y < 2 ^ 31).
  { unfold pixel in Hp. destruct (c !! y) as [row|] eqn:E; [|discriminate].
    apply lookup_lt_Some in E. lia. }
  rewrite (c_int_small width) by lia.
  rewrite Z.min_l, Z.max_r by lia.
  destruct (Z.ltb_spec (Z.of_nat y) (2 ^ 31)); [|lia].
  destruct (Z.leb_spec 0 (Z.of_nat x)); [|lia].
  destruct (Z.ltb_spec (Z.of_nat y) height); cbn [andb]; [|reflexivity].
  destruct (Z.of_nat x <=? width); [|reflexivity].
  apply ink_of_color, row_color_is_color; eauto using color_value_is_color. lia.
Qed.

Lemma create_gradient_background_size width height color_top color_bottom w h c :
  has_size w h c ->
  has_size w h (create_gradient_background width height color_top color_bottom c).1.
Proof.
  intros Hs.
  destruct (gradient_cases width height color_top color_bottom c)
    as [(top & bottom & _ & _ & ->)|[_ ->]]; cbn [fst]; [|exact Hs].
  destruct ((0 <? height) && (overflow_bound <=? Z.abs width)); cbn [fst]; [exact Hs|].
  apply gradient_canvas_size, Hs.
Qed.

(** X4. Whatever its arguments, [create_gradient_background] leaves the
    number of rows and the length of every row as they were. *)
Theorem gradient_keeps_dimensions width height color_top color_bottom w h c :
  has_size w h c ->
  has_size w h (create_gradient_background width height color_top color_bottom c).1.
Proof. apply create_gradient_background_size. Qed.

(** X5. Drawing the same gradient twice gives what drawing it once gives. *)
Theorem gradient_idempotent width height color_top color_bottom c :
  (create_gradient_background width height color_top color_bottom ;;;
   create_gradient_background width height color_top color_bottom) c
  = create_gradient_background width height color_top color_bottom c.
Proof.
  unfold bindM.
  destruct (gradient_cases width height color_top color_bottom c)
    as [(top & bottom & Et & Eb & E)|[_ E]]; rewrite E; [|reflexivity].
  destruct ((0 <? height) && (overflow_bound <=? Z.abs width)) eqn:Ew; [reflexivity|].
  destruct (height <=? overflow_bound) eqn:Eh; [|reflexivity].
  destruct (gradient_cases width height color_top color_bottom
              (gradient_canvas width height top bottom c))
    as [(top' & bottom' & Et' & Eb' & E')|[[F|F] _]]; [|congruence..].
  rewrite E', Ew, Eh.
  assert (top' = top) by congruence. assert (bottom' = bottom) by congruence.
  subst top' bottom'. rewrite gradient_canvas_idem. reflexivity.
Qed.

(** X1. Each channel of each pixel of the gradient is the interpolation
    computed exactly and truncated, [(c1*h + (c2 - c1)*y) div h], or one
    less: the floating-point evaluation never errs by more. *)
Theorem gradient_pixels_near_exact width height color_top color_bottom top bottom c
    x y p ch :
  0 < width -> 0 < height <= 2 ^ 40 ->
  color_value color_top = Some top -> color_value color_bottom = Some bottom ->
  has_size (Z.to_nat width) (Z.to_nat height) c ->
  pixel (create_gradient_background width height color_top color_bottom c).1 x y = Some p ->
  exact_lerp (get ch top) (get ch bottom) (Z.of_nat y) height - 1
  <= get ch p
  <= exact_lerp (get ch top) (get ch bottom) (Z.of_nat y) height.
Proof.
  intros Hw Hh Ht Hb Hs.
  pose proof (color_value_is_color _ _ Ht) as Ct.
  pose proof (color_value_is_color _ _ Hb) as Cb.
  rewrite (gradient_run_sized width height color_top color_bottom top bottom c)
    by (assumption || lia).
  cbn [fst]. intros Hp.
  assert (Hin : (y < Z.to_nat height)%nat /\ (x < Z.to_nat width)%nat).
  { pose proof (gradient_canvas_size width height top bottom _ _ c Hs) as (L & R & _).
    unfold pixel in Hp.
    destruct (gradient_canvas width height top bottom c !! y) as [row|] eqn:Er;
      [|discriminate].
    split.
    - rewrite <- L. eapply lookup_lt_Some, Er.
    - rewrite Forall_lookup in R. rewrite <- (R y row Er). eapply lookup_lt_Some, Hp. }
  rewrite (gradient_pixel_inside width height top bottom c x y Ct Cb Hs) in Hp by lia.
  injection Hp as <-. rewrite get_row_color.
  apply lerp_near_exact; auto using is_color_get; lia.
Qed.

End GradientEverywhere.

(** ** The label compositor on colors that do not parse *)

Section OutlineErrors.
Context `{Externals}.





End OutlineErrors.

(** ** The three images *)

Section Icons.
Context `{Externals} `{System}.

Lemma get_font_returns size bold : exists f, get_font size bold = Ok f.
Proof. unfold get_font. destruct (get_font_loop _ _); eauto. Qed.

Lemma label_block_returns place s f fill_color outline_color w c :
  exists c', label_block place s f fill_color outline_color w c = (c', Ok tt).
Proof.
  unfold label_block, try_except.
  match goal with |- context [match ?m with _ => _ end] => destruct m as [c' [[]|e]] end;
    eexists; reflexivity.
Qed.

(** The body of a label block whose text cannot be rendered raises, and
    leaves the image as it was. *)
Lemma label_body_fails place s f fill_color outline_color w c :
  cannot_render s f ->
  exists e, label_body place s f fill_color outline_color w c = (c, Raise e).
Proof.
  intros Hc. unfold label_body. unfold bindM at 1. unfold lift at 1.
  destruct Hc as [[e He]|Hdraw].
  - rewrite He. eauto.
  - destruct (textbbox (0, 0) s f) as [bbox|e]; [|eauto].
    unfold bindM, lift. destruct (place bbox) as [position|e]; [|eauto].
    apply stamp_of_unrenderable_text, Hdraw.
Qed.

Lemma label_block_skip place s f fill_color outline_color w c :
  cannot_render s f -> label_block place s f fill_color outline_color w c = (c, Ok tt).
Proof.
  intros Hc. unfold label_block, try_except.
  destruct (label_body_fails place s f fill_color outline_color w c Hc) as [e ->].
  reflexivity.
Qed.

(** The first label block of [create_app_icon], whose handler prints a
    note: the block itself hands the exception, if any, to the handler. *)
Lemma noted_label_returns (body : M unit) c :
  exists c' failure,
    try_except (body ;;; ret None) (fun e => ret (Some e)) c = (c', Ok failure).
Proof.
  unfold try_except, bindM, ret. destruct (body c) as [c' [[]|e]]; eauto.
Qed.

Lemma noted_label_skip (body : M unit) c e :
  body c = (c, Raise e) ->
  try_except (body ;;; ret None) (fun e => ret (Some e)) c = (c, Ok (Some e)).
Proof. intros E. unfold try_except, bindM, ret. rewrite E. reflexivity. Qed.

Lemma scaled_returns size k :
  Z.abs size < Binary64.overflow_bound -> exists n, scaled size k = Ok n.
Proof.
  intros Hs. unfold scaled, int_mul_float, float_of_int.
  destruct (Z.leb_spec Binary64.overflow_bound (Z.abs size)); [lia|].
  eexists. reflexivity.
Qed.

Lemma bindIO_ok {A B} (m : IO A) (k : A -> IO B) d d1 a :
  m d = (d1, Ok a) -> bindIO m k d = k a d1.
Proof. intros E. unfold bindIO. rewrite E. reflexivity. Qed.

Lemma bindIO_raise {A B} (m : IO A) (k : A -> IO B) d d1 e :
  m d = (d1, Raise e) -> bindIO m k d = (d1, Raise e).
Proof. intros E. unfold bindIO. rewrite E. reflexivity. Qed.

Lemma bindIO_ok_inv {A B} (m : IO A) (k : A -> IO B) d d' b :
  bindIO m k d = (d', Ok b) -> exists a d1, m d = (d1, Ok a) /\ k a d1 = (d', Ok b).
Proof.
  unfold bindIO. destruct (m d) as [d1 [a|e]]; [eauto | discriminate].
Qed.

Lemma print_ok text d :
  write_error d (Printed text) = None ->
  print text d = (written (Printed text) d, Ok tt).
Proof. intros E. unfold print, emit. rewrite E. reflexivity. Qed.

Lemma files_written o d : files (written o d) = files d.
Proof. reflexivity. Qed.

Lemma files_saved path img d : files (saved path img d) = files d ++ [(path, img)].
Proof. reflexivity. Qed.

Lemma console_written o d : console (written o d) = console d ++ [o].
Proof. reflexivity. Qed.

Lemma image_new_ok w h color d :
  0 <= w < 2 ^ 31 -> 0 <= h < 2 ^ 31 -> alloc_error d w h = None ->
  image_new w h color d = (d, Ok (blank (Z.to_nat w) (Z.to_nat h) (ink_of color))).
Proof.
  intros Hw Hh E. unfold image_new.
  destruct (Z.ltb_spec w 0); [lia|]. destruct (Z.ltb_spec h 0); [lia|].
  destruct (Z.leb_spec (2 ^ 31) w); [lia|]. destruct (Z.leb_spec (2 ^ 31) h); [lia|].
  cbn [orb]. rewrite E. reflexivity.
Qed.

Lemma image_new_size w h color d d' img :
  image_new w h color d = (d', Ok img) -> has_size (Z.to_nat w) (Z.to_nat h) img.
Proof.
  unfold image_new.
  destruct (Z.ltb_spec w 0); [discriminate|]. destruct (Z.ltb_spec h 0); [discriminate|].
  destruct (Z.leb_spec (2 ^ 31) w); [discriminate|].
  destruct (Z.leb_spec (2 ^ 31) h); [discriminate|]. cbn [orb].
  destruct (alloc_error d w h); [discriminate|]. intros [= _ <-].
  apply blank_has_size; lia.
Qed.

Lemma draw_on_ok {A} img (m : M A) d img' a :
  m img = (img', Ok a) -> draw_on img m d = (d, Ok (img', a)).
Proof. intros E. unfold draw_on. rewrite E. reflexivity. Qed.

Lemma draw_on_size {A} img (m : M A) d d' img' a w h :
  keeps_size m -> has_size w h img ->
  draw_on img m d = (d', Ok (img', a)) -> has_size w h img'.
Proof.
  intros Hk Hs. specialize (Hk w h img Hs). unfold draw_on.
  destruct (m img) as [c' [a'|e]]; [|discriminate]. intros [= _ <- _]. exact Hk.
Qed.

(** One step of the drawing of an image: a scaled size, a font, or a
    label, handled by [on_label]. *)
Ltac label_returns :=
  idtac;
  match goal with
  | |- context [label_block ?p ?s ?f ?a ?b ?w ?c] =>
      let E := fresh "E" in
      destruct (label_block_returns p s f a b w c) as [? E]; rewrite E
  end.

Ltac drawing_step on_label :=
  first
    [ match goal with
      | |- context [lift (scaled ?n ?k) _] =>
          let E := fresh "E" in
          destruct (scaled_returns n k ltac:(lia)) as [? E]; rewrite E; unfold lift at 1
      end
    | match goal with
      | |- context [lift (get_font ?n ?b) _] =>
          let E := fresh "E" in
          destruct (get_font_returns n b) as [? E]; rewrite E; unfold lift at 1
      end
    | on_label ].

(** The drawing of an image runs to its end, on every image. *)
Ltac drawing_returns Hs :=
  match goal with
  | |- context [draw_on ?img ?m] =>
      let D := fresh "D" in
      assert (D : exists img' a, m img = (img', Ok a));
      [ pose proof (image_size_in_range _ (proj2 Hs));
        repeat (unfold bindM at 1; drawing_step label_returns);
        try label_returns; eauto
      | destruct D as (? & ? & D); rewrite (bindIO_ok _ _ _ _ _ (draw_on_ok _ _ _ _ _ D)) ]
  end.

Lemma app_icon_ok size d :
  0 <= size < 2 ^ 31 -> prints_succeed -> memory_for size size ->
  exists icon d', create_app_icon size d = (d', Ok icon) /\ files d' = files d.
Proof.
  intros Hs Hp Hm. unfold create_app_icon.
  rewrite (bindIO_ok _ _ _ _ _ (print_ok _ _ (Hp _ _))).
  assert (E : hex_to_rgb PRIMARY_BLUE = Ok (46, 124, 238)) by (vm_compute; reflexivity).
  rewrite E. rewrite (bindIO_ok (liftIO (Ok _)) _ _ _ _ eq_refl).
  rewrite (bindIO_ok _ _ _ _ _ (image_new_ok _ _ _ _ Hs Hs (Hm _))).
  match goal with
  | |- context [draw_on ?img ?m] =>
      assert (D : exists img' a, m img = (img', Ok a))
  end.
  { pose proof (image_size_in_range _ (proj2 Hs)).
    unfold bindM at 1.
    rewrite (gradient_run size size LIGHT_BLUE DARK_BLUE (91, 163, 255) (30, 91, 184))
      by (reflexivity || lia).
    repeat (unfold bindM at 1; drawing_step fail).
    apply noted_label_returns. }
  destruct D as (icon1 & failure & D).
  rewrite (bindIO_ok _ _ _ _ _ (draw_on_ok _ _ _ _ _ D)).
  assert (N : exists d1,
    match failure with
    | Some e => print [Str "    Note: Using default font - "; Exc e]
    | None => retIO tt
    end (written (Printed [Str "  Creating app icon ("; Int size; Str "x"; Int size;
                           Str ")..."]) d) = (d1, Ok tt) /\ files d1 = files d).
  { destruct failure as [e|].
    - eexists. rewrite (print_ok _ _ (Hp _ _)). split; reflexivity.
    - eexists. split; reflexivity. }
  destruct N as (d1 & N & F1). rewrite (bindIO_ok _ _ _ _ _ N).
  drawing_returns Hs.
  eexists _, _. split; [reflexivity | exact F1].
Qed.

Lemma adaptive_icon_ok size d :
  0 <= size < 2 ^ 31 -> prints_succeed -> memory_for size size ->
  exists icon d', create_adaptive_icon size d = (d', Ok icon) /\ files d' = files d.
Proof.
  intros Hs Hp Hm. unfold create_adaptive_icon.
  rewrite (bindIO_ok _ _ _ _ _ (print_ok _ _ (Hp _ _))).
  assert (E : hex_to_rgb WHITE = Ok (255, 255, 255)) by (vm_compute; reflexivity).
  rewrite E. rewrite (bindIO_ok (liftIO (Ok _)) _ _ _ _ eq_refl).
  rewrite (bindIO_ok _ _ _ _ _ (image_new_ok _ _ _ _ Hs Hs (Hm _))).
  match goal with
  | |- context [draw_on ?img ?m] =>
      assert (D : exists img' a, m img = (img', Ok a))
  end.
  { pose proof (image_size_in_range _ (proj2 Hs)).
    unfold bindM at 1.
    rewrite (gradient_run size size WHITE LIGHT_BLUE (255, 255, 255) (91, 163, 255))
      by (reflexivity || lia).
    repeat (unfold bindM at 1; drawing_step label_returns).
    label_returns. eauto. }
  destruct D as (icon1 & [] & D).
  rewrite (bindIO_ok _ _ _ _ _ (draw_on_ok _ _ _ _ _ D)).
  eexists _, _. split; reflexivity.
Qed.

Lemma splash_screen_ok width height d :
  0 <= width < 2 ^ 31 -> 0 <= height < 2 ^ 31 -> prints_succeed -> memory_for width height ->
  exists splash d',
    create_splash_screen width height d = (d', Ok splash) /\ files d' = files d.
Proof.
  intros Hw Hh Hp Hm. unfold create_splash_screen.
  rewrite (bindIO_ok _ _ _ _ _ (print_ok _ _ (Hp _ _))).
  assert (E : hex_to_rgb PRIMARY_BLUE = Ok (46, 124, 238)) by (vm_compute; reflexivity).
  rewrite E. rewrite (bindIO_ok (liftIO (Ok _)) _ _ _ _ eq_refl).
  rewrite (bindIO_ok _ _ _ _ _ (image_new_ok _ _ _ _ Hw Hh (Hm _))).
  match goal with
  | |- context [draw_on ?img ?m] =>
      assert (D : exists img' a, m img = (img', Ok a))
  end.
  { pose proof (image_size_in_range _ (proj2 Hw)).
    pose proof (image_size_in_range _ (proj2 Hh)).
    unfold bindM at 1.
    rewrite (gradient_run width height LIGHT_BLUE DARK_BLUE (91, 163, 255) (30, 91, 184))
      by (reflexivity || lia).
    repeat (unfold bindM at 1; drawing_step label_returns).
    label_returns. eauto. }
  destruct D as (splash1 & [] & D).
  rewrite (bindIO_ok _ _ _ _ _ (draw_on_ok _ _ _ _ _ D)).
  eexists _, _. split; reflexivity.
Qed.

Lemma keeps_lift {A} (r : result A) : keeps_size (lift r).
Proof. intros w h c Hs. exact Hs. Qed.

Lemma keeps_ret {A} (a : A) : keeps_size (ret a).
Proof. intros w h c Hs. exact Hs. Qed.

Lemma keeps_bind {A B} (m : M A) (k : A -> M B) :
  keeps_size m -> (forall a, keeps_size (k a)) -> keeps_size (bindM m k).
Proof.
  intros Hm Hk w h c Hs. specialize (Hm w h c Hs). unfold bindM.
  destruct (m c) as [c' [a|e]]; cbn [fst] in *; [apply Hk; exact Hm | exact Hm].
Qed.

Lemma keeps_for_each {A} (l : list A) (body : A -> M unit) :
  (forall a, keeps_size (body a)) -> keeps_size (for_each l body).
Proof.
  intros Hb. induction l as [|a l IH]; cbn [for_each]; [apply keeps_ret|].
  apply keeps_bind; [apply Hb | intros _; exact IH].
Qed.

Lemma keeps_try {A} (body : M A) (handler : exn -> M A) :
  keeps_size body -> (forall e, keeps_size (handler e)) -> keeps_size (try_except body handler).
Proof.
  intros Hb Hh w h c Hs. specialize (Hb w h c Hs). unfold try_except.
  destruct (body c) as [c' [a|e]]; cbn [fst] in *; [exact Hb | apply Hh; exact Hb].
Qed.

Lemma keeps_draw_text xy s f ink : text_keeps_size -> keeps_size (draw_text xy s f ink).
Proof.
  intros Ht w h c Hs. unfold draw_text.
  destruct (text c xy s f ink) as [c'|e] eqn:E; cbn [fst]; [|exact Hs].
  exact (Ht c xy s f ink c' w h E Hs).
Qed.

Lemma keeps_gradient width height color_top color_bottom :
  keeps_size (create_gradient_background width height color_top color_bottom).
Proof. intros w h c Hs. apply create_gradient_background_size, Hs. Qed.

Lemma keeps_outline position s f fill_color outline_color w :
  text_keeps_size ->
  keeps_size (draw_text_with_outline position s f fill_color outline_color w).
Proof.
  intros Ht. destruct position as [x y]. unfold draw_text_with_outline.
  apply keeps_bind.
  - apply keeps_for_each. intros adj_x. apply keeps_for_each. intros adj_y.
    destruct (negb (adj_x =? 0) || negb (adj_y =? 0)); [|apply keeps_ret].
    apply keeps_bind; [apply keeps_lift | intros ink; apply keeps_draw_text, Ht].
  - intros _. apply keeps_bind; [apply keeps_lift | intros ink; apply keeps_draw_text, Ht].
Qed.

Lemma keeps_label_body place s f fill_color outline_color w :
  text_keeps_size -> keeps_size (label_body place s f fill_color outline_color w).
Proof.
  intros Ht. unfold label_body.
  apply keeps_bind; [apply keeps_lift | intros bbox].
  apply keeps_bind; [apply keeps_lift | intros position]. apply keeps_outline, Ht.
Qed.

Lemma keeps_label_block place s f fill_color outline_color w :
  text_keeps_size -> keeps_size (label_block place s f fill_color outline_color w).
Proof.
  intros Ht. unfold label_block.
  apply keeps_try; [apply keeps_label_body, Ht | intros _; apply keeps_ret].
Qed.

Ltac keeps_drawing Ht :=
  repeat
    match goal with
    | |- keeps_size (create_gradient_background _ _ _ _) => apply keeps_gradient
    | |- keeps_size (label_block _ _ _ _ _ _) => apply keeps_label_block; exact Ht
    | |- keeps_size (label_body _ _ _ _ _ _) => apply keeps_label_body; exact Ht
    | |- keeps_size (lift _) => apply keeps_lift
    | |- keeps_size (ret _) => apply keeps_ret
    | |- keeps_size (try_except _ _) => apply keeps_try; [|intros ?]
    | |- keeps_size (bindM _ _) => apply keeps_bind; [|intros ?]
    end.

(** The steps of an image function that returned: each one returned. *)
Ltac returned E :=
  let a := fresh "a" in
  let d := fresh "d" in
  let S := fresh "S" in
  apply bindIO_ok_inv in E as (a & d & S & E).

Lemma app_icon_size size d d' icon :
  text_keeps_size -> create_app_icon size d = (d', Ok icon) ->
  has_size (Z.to_nat size) (Z.to_nat size) icon.
Proof.
  intros Ht E. unfold create_app_icon in E.
  returned E. returned E. returned E.
  apply image_new_size in S1.
  apply bindIO_ok_inv in E as ([icon1 failure] & d3 & S2 & E).
  assert (K1 : has_size (Z.to_nat size) (Z.to_nat size) icon1)
    by (eapply draw_on_size; [ | | exact S2]; [keeps_drawing Ht | exact S1]).
  returned E.
  apply bindIO_ok_inv in E as ([icon2 u] & d5 & S4 & E).
  assert (K2 : has_size (Z.to_nat size) (Z.to_nat size) icon2)
    by (eapply draw_on_size; [ | | exact S4]; [keeps_drawing Ht | exact K1]).
  injection E as _ <-. exact K2.
Qed.

Lemma adaptive_icon_size size d d' icon :
  text_keeps_size -> create_adaptive_icon size d = (d', Ok icon) ->
  has_size (Z.to_nat size) (Z.to_nat size) icon.
Proof.
  intros Ht E. unfold create_adaptive_icon in E.
  returned E. returned E. returned E.
  apply image_new_size in S1.
  apply bindIO_ok_inv in E as ([icon1 u] & d3 & S2 & E).
  assert (K1 : has_size (Z.to_nat size) (Z.to_nat size) icon1)
    by (eapply draw_on_size; [ | | exact S2]; [keeps_drawing Ht | exact S1]).
  injection E as _ <-. exact K1.
Qed.

Lemma splash_screen_size width height d d' splash :
  text_keeps_size -> create_splash_screen width height d = (d', Ok splash) ->
  has_size (Z.to_nat width) (Z.to_nat height) splash.
Proof.
  intros Ht E. unfold create_splash_screen in E.
  returned E. returned E. returned E.
  apply image_new_size in S1.
  apply bindIO_ok_inv in E as ([splash1 u] & d3 & S2 & E).
  assert (K1 : has_size (Z.to_nat width) (Z.to_nat height) splash1)
    by (eapply draw_on_size; [ | | exact S2]; [keeps_drawing Ht | exact S1]).
  injection E as _ <-. exact K1.
Qed.

(** X11. When the console takes the texts and there is memory for the
    image, [create_app_icon] returns an icon for every size an image can
    have: no failure of a font file, of a measurement or of a text draw
    reaches its caller.  It saves no file. *)
Theorem create_app_icon_returns size d :
  0 <= size < 2 ^ 31 -> prints_succeed -> memory_for size size ->
  exists icon d', create_app_icon size d = (d', Ok icon) /\ files d' = files d.
Proof. apply app_icon_ok. Qed.

(** X12. When no label can be rendered, the icon is the gradient alone:
    the image [Image.new] made, after [create_gradient_background]. *)
Theorem app_icon_without_labels_is_gradient size d :
  0 <= size < 2 ^ 31 -> prints_succeed -> memory_for size size ->
  (forall s f, cannot_render s f) ->
  (create_app_icon size d).2
  = Ok (create_gradient_background size size LIGHT_BLUE DARK_BLUE
          (blank (Z.to_nat size) (Z.to_nat size) (46, 124, 238))).1.
Proof.
  intros Hs Hp Hm Hc. unfold create_app_icon.
  rewrite (bindIO_ok _ _ _ _ _ (print_ok _ _ (Hp _ _))).
  assert (E : hex_to_rgb PRIMARY_BLUE = Ok (46, 124, 238)) by (vm_compute; reflexivity).
  rewrite E. rewrite (bindIO_ok (liftIO (Ok _)) _ _ _ _ eq_refl).
  rewrite (bindIO_ok _ _ _ _ _ (image_new_ok _ _ _ _ Hs Hs (Hm _))).
  change (ink_of (46, 124, 238)) with (46, 124, 238).
  pose proof (image_size_in_range _ (proj2 Hs)) as Hr.
  pose proof (gradient_run size size LIGHT_BLUE DARK_BLUE (91, 163, 255) (30, 91, 184)
                (blank (Z.to_nat size) (Z.to_nat size) (46, 124, 238))
                eq_refl eq_refl ltac:(lia) ltac:(lia)) as G.
  rewrite G. cbn [fst].
  match goal with
  | |- context [draw_on ?img ?m] =>
      assert (D : exists e, m img
        = (gradient_canvas size size (91, 163, 255) (30, 91, 184) img, Ok (Some e)))
  end.
  { unfold bindM at 1. rewrite G.
    repeat (unfold bindM at 1; drawing_step fail).
    match goal with
    | |- context [label_body ?p ?s ?f ?a ?b ?w] =>
        destruct (label_body_fails p s f a b w
                    (gradient_canvas size size (91, 163, 255) (30, 91, 184)
                       (blank (Z.to_nat size) (Z.to_nat size) (46, 124, 238)))
                    (Hc _ _)) as [e Hb]
    end.
    exists e. apply noted_label_skip, Hb. }
  destruct D as (e & D).
  rewrite (bindIO_ok _ _ _ _ _ (draw_on_ok _ _ _ _ _ D)).
  rewrite (bindIO_ok _ _ _ _ _ (print_ok _ _ (Hp _ _))).
  match goal with
  | |- context [draw_on ?img ?m] =>
      assert (D2 : m img = (img, Ok tt))
  end.
  { repeat (unfold bindM at 1;
            drawing_step ltac:(idtac; rewrite label_block_skip by apply Hc)).
    rewrite label_block_skip by apply Hc. reflexivity. }
  rewrite (bindIO_ok _ _ _ _ _ (draw_on_ok _ _ _ _ _ D2)). reflexivity.
Qed.

(** X13. The icon [create_app_icon] returns has [size] rows of [size]
    pixels, provided the text draws of the collaborators keep the
    dimensions of the image. *)
Theorem app_icon_has_requested_size size d d' icon :
  text_keeps_size -> create_app_icon size d = (d', Ok icon) ->
  has_size (Z.to_nat size) (Z.to_nat size) icon.
Proof. apply app_icon_size. Qed.

(** X14. When the console takes the texts and there is memory for the
    image, [create_adaptive_icon] returns an icon for every size an image
    can have, whatever the fonts do; the icon has [size] rows of [size]
    pixels when the text draws keep the dimensions. *)
Theorem adaptive_icon_returns_sized size d :
  0 <= size < 2 ^ 31 -> prints_succeed -> memory_for size size ->
  exists icon d',
    create_adaptive_icon size d = (d', Ok icon) /\ files d' = files d /\
    (text_keeps_size -> has_size (Z.to_nat size) (Z.to_nat size) icon).
Proof.
  intros Hs Hp Hm. destruct (adaptive_icon_ok size d Hs Hp Hm) as (icon & d' & E & F).
  exists icon, d'. split; [exact E|]. split; [exact F|].
  intros Ht. exact (adaptive_icon_size size d d' icon Ht E).
Qed.

(** X15. When the console takes the texts and there is memory for the
    image, [create_splash_screen] returns an image for every width and
    height an image can have, whatever the fonts do; it has [height] rows
    of [width] pixels when the text draws keep the dimensions. *)
Theorem splash_screen_returns_sized width height d :
  0 <= width < 2 ^ 31 -> 0 <= height < 2 ^ 31 ->
  prints_succeed -> memory_for width height ->
  exists splash d',
    create_splash_screen width height d = (d', Ok splash) /\ files d' = files d /\
    (text_keeps_size -> has_size (Z.to_nat width) (Z.to_nat height) splash).
Proof.
  intros Hw Hh Hp Hm.
  destruct (splash_screen_ok width height d Hw Hh Hp Hm) as (splash & d' & E & F).
  exists splash, d'. split; [exact E|]. split; [exact F|].
  intros Ht. exact (splash_screen_size width height d d' splash Ht E).
Qed.

End Icons.

(** ** Writing the four files *)

Section Assets.
Context `{Externals} `{System}.

Lemma save_ok img path d :
  save_error d path img = None -> save img path d = (saved path img d, Ok tt).
Proof. intros E. unfold save. rewrite E. reflexivity. Qed.

Lemma print_raise text d e :
  write_error d (Printed text) = Some e -> print text d = (d, Raise e).
Proof. intros E. unfold print, emit. rewrite E. reflexivity. Qed.

(** *** What saves a file and what does not *)

Lemma silent_emit o d : files (emit o d).1 = files d.
Proof. unfold emit. destruct (write_error d o); reflexivity. Qed.

Lemma silent_print text d : files (print text d).1 = files d.
Proof. apply silent_emit. Qed.

Lemma silent_lift {A} (r : result A) d : files (liftIO r d).1 = files d.
Proof. reflexivity. Qed.

Lemma silent_ret {A} (a : A) d : files (retIO a d).1 = files d.
Proof. reflexivity. Qed.

Lemma silent_image_new w h color d : files (image_new w h color d).1 = files d.
Proof.
  unfold image_new. destruct ((w <? 0) || (h <? 0)); [reflexivity|].
  destruct ((2 ^ 31 <=? w) || (2 ^ 31 <=? h)); [reflexivity|].
  destruct (alloc_error d w h); reflexivity.
Qed.

Lemma silent_draw_on {A} img (m : M A) d : files (draw_on img m d).1 = files d.
Proof. unfold draw_on. destruct (m img) as [img' [a|e]]; reflexivity. Qed.

Lemma silent_bind {A B} (m : IO A) (k : A -> IO B) :
  (forall d, files (m d).1 = files d) -> (forall a d, files (k a d).1 = files d) ->
  forall d, files (bindIO m k d).1 = files d.
Proof.
  intros Hm Hk d. unfold bindIO. specialize (Hm d).
  destruct (m d) as [d1 [a|e]]; cbn [fst] in *; [rewrite Hk|]; exact Hm.
Qed.

Ltac silent :=
  repeat
    match goal with
    | |- forall _, _ => intros ?
    | |- files (bindIO _ _ ?d).1 = _ => revert d; apply silent_bind
    | |- files (print _ _).1 = _ => apply silent_print
    | |- files (emit _ _).1 = _ => apply silent_emit
    | |- files (liftIO _ _).1 = _ => apply silent_lift
    | |- files (retIO _ _).1 = _ => apply silent_ret
    | |- files (image_new _ _ _ _).1 = _ => apply silent_image_new
    | |- files (draw_on _ _ _).1 = _ => apply silent_draw_on
    | |- files (match ?x with _ => _ end _).1 = _ => destruct x
    end.

Lemma app_icon_silent size d : files (create_app_icon size d).1 = files d.
Proof. unfold create_app_icon. silent. Qed.

Lemma adaptive_icon_silent size d : files (create_adaptive_icon size d).1 = files d.
Proof. unfold create_adaptive_icon. silent. Qed.

Lemma splash_screen_silent width height d :
  files (create_splash_screen width height d).1 = files d.
Proof. unfold create_splash_screen. silent. Qed.

Lemma saves_nothing {A} (Q : A -> Prop) (m : IO A) :
  (forall d, files (m d).1 = files d) -> saves_in_order [] Q m.
Proof.
  intros Hm d. exists []. rewrite app_nil_r.
  split; [apply Hm|]. split; reflexivity.
Qed.

Lemma saves_bind_silent {A B} (Q : B -> Prop) (m : IO A) (k : A -> IO B) l :
  (forall d, files (m d).1 = files d) -> (forall a, saves_in_order l Q (k a)) ->
  saves_in_order l Q (bindIO m k).
Proof.
  intros Hm Hk d. unfold bindIO. specialize (Hm d).
  destruct (m d) as [d1 [a|e]]; cbn [fst snd] in *.
  - destruct (Hk a d1) as (written & E & P & C). exists written. rewrite <- Hm. auto.
  - exists []. rewrite app_nil_r. split; [exact Hm|]. split; [apply prefix_nil|].
    intros a; discriminate.
Qed.

Lemma saves_bind_save {B} (Q : B -> Prop) img path (k : unit -> IO B) l :
  (forall a, saves_in_order l Q (k a)) ->
  saves_in_order (path :: l) Q (bindIO (save img path) k).
Proof.
  intros Hk d. unfold bindIO, save. destruct (save_error d path img) as [e|].
  - exists []. rewrite app_nil_r. split; [reflexivity|]. split; [apply prefix_nil|].
    intros a; discriminate.
  - destruct (Hk tt (saved path img d)) as (written & E & P & C).
    exists ((path, img) :: written). rewrite files_saved in E. rewrite E, <- app_assoc.
    split; [reflexivity|]. split; [apply prefix_cons, P|].
    intros a Ha Qa. cbn [fmap list_fmap fst]. f_equal. exact (C a Ha Qa).
Qed.

Lemma saves_try {A} (Q : A -> Prop) (body : IO A) (handler : exn -> IO A) l :
  saves_in_order l Q body ->
  (forall e d, files (handler e d).1 = files d /\
               forall a, (handler e d).2 = Ok a -> ~ Q a) ->
  saves_in_order l Q (try_exceptIO body handler).
Proof.
  intros Hb Hh d. unfold try_exceptIO. destruct (Hb d) as (written & E & P & C).
  destruct (body d) as [d1 [a|e]]; cbn [fst snd] in *.
  - exists written. auto.
  - destruct (Hh e d1) as [F N]. exists written. rewrite F.
    split; [exact E|]. split; [exact P|]. intros a Ha Qa. destruct (N a Ha Qa).
Qed.

Lemma generate_all_assets_order :
  saves_in_order asset_paths (fun success => success = true) generate_all_assets.
Proof.
  unfold generate_all_assets, asset_paths.
  repeat (apply saves_bind_silent; [apply silent_print | intros _]).
  apply saves_try.
  - repeat
      first
        [ apply saves_bind_save; intros _
        | apply saves_bind_silent;
          [ first [ apply app_icon_silent | apply adaptive_icon_silent
                  | apply splash_screen_silent | apply silent_lift | apply silent_print ]
          | intros ? ] ].
    apply saves_nothing, silent_ret.
  - intros e d. split.
    + silent.
    + intros a. unfold bindIO, print, emit.
      destruct (write_error d _); [discriminate|]. cbn [fst snd].
      destruct (write_error _ _); [discriminate|]. cbn [retIO snd].
      intros [= <-]. discriminate.
Qed.

(** X16. When the console takes the texts, there is memory for the three
    images, every save goes through and the icon can be resized,
    [generate_all_assets] returns [True] and has saved exactly four files,
    in this order: what [create_app_icon(1024)], [create_adaptive_icon(1024)]
    and [create_splash_screen(1284, 2778)] returned, and the app icon
    resized to 48x48.  No font or text failure can prevent it. *)
Theorem generate_all_assets_succeeds d :
  prints_succeed -> memory_for 1024 1024 -> memory_for 1284 2778 -> saves_succeed ->
  (forall img, exists small, resize img (48, 48) = Ok small) ->
  exists icon adaptive splash favicon d',
    generate_all_assets d = (d', Ok true) /\
    files d' = files d ++ [ ("assets/icon.png", icon); ("assets/adaptive-icon.png", adaptive);
                            ("assets/splash.png", splash); ("assets/favicon.png", favicon) ] /\
    resize icon (48, 48) = Ok favicon /\
    (exists d0 d1, create_app_icon 1024 d0 = (d1, Ok icon)) /\
    (exists d0 d1, create_adaptive_icon 1024 d0 = (d1, Ok adaptive)) /\
    (exists d0 d1, create_splash_screen 1284 2778 d0 = (d1, Ok splash)).
Proof.
  intros Hp M1 M2 Hsave Hresize.
  pose proof (fun d => app_icon_ok 1024 d ltac:(lia) Hp M1) as Hi.
  pose proof (fun d => adaptive_icon_ok 1024 d ltac:(lia) Hp M1) as Ha.
  pose proof (fun d => splash_screen_ok 1284 2778 d ltac:(lia) ltac:(lia) Hp M2) as Hs.
  unfold generate_all_assets. revert Hi Ha Hs.
  generalize (create_app_icon 1024) (create_adaptive_icon 1024)
             (create_splash_screen 1284 2778).
  intros mk_icon mk_adaptive mk_splash Hi Ha Hs.
  repeat rewrite (bindIO_ok _ _ _ _ _ (print_ok _ _ (Hp _ _))).
  unfold try_exceptIO.
  rewrite (bindIO_ok _ _ _ _ _ (print_ok _ _ (Hp _ _))).
  match goal with
  | |- context [bindIO mk_icon _ ?dd] => destruct (Hi dd) as (icon & d1 & Ei & Fi)
  end.
  rewrite (bindIO_ok _ _ _ _ _ Ei).
  rewrite (bindIO_ok _ _ _ _ _ (save_ok _ _ _ (Hsave _ _ _))).
  repeat rewrite (bindIO_ok _ _ _ _ _ (print_ok _ _ (Hp _ _))).
  match goal with
  | |- context [bindIO mk_adaptive _ ?dd] => destruct (Ha dd) as (adaptive & d2 & Ea & Fa)
  end.
  rewrite (bindIO_ok _ _ _ _ _ Ea).
  rewrite (bindIO_ok _ _ _ _ _ (save_ok _ _ _ (Hsave _ _ _))).
  repeat rewrite (bindIO_ok _ _ _ _ _ (print_ok _ _ (Hp _ _))).
  match goal with
  | |- context [bindIO mk_splash _ ?dd] => destruct (Hs dd) as (splash & d3 & Es & Fs)
  end.
  rewrite (bindIO_ok _ _ _ _ _ Es).
  rewrite (bindIO_ok _ _ _ _ _ (save_ok _ _ _ (Hsave _ _ _))).
  repeat rewrite (bindIO_ok _ _ _ _ _ (print_ok _ _ (Hp _ _))).
  destruct (Hresize icon) as [favicon Ef]. rewrite Ef.
  rewrite (bindIO_ok (liftIO (Ok _)) _ _ _ _ eq_refl).
  rewrite (bindIO_ok _ _ _ _ _ (save_ok _ _ _ (Hsave _ _ _))).
  repeat rewrite (bindIO_ok _ _ _ _ _ (print_ok _ _ (Hp _ _))).
  exists icon, adaptive, splash, favicon. eexists.
  split; [reflexivity|]. split.
  - repeat first [ rewrite files_written | rewrite files_saved
                 | rewrite Fs | rewrite Fa | rewrite Fi ].
    rewrite <- !app_assoc. reflexivity.
  - split; [exact Ef|].
    split; [eexists _, _; exact Ei|]. split; [eexists _, _; exact Ea|].
    eexists _, _; exact Es.
Qed.

(** X17. However it ends, [generate_all_assets] removes nothing from
    what was saved before, and what it saves are the first ones of its four
    files, in order: the first failure ends the run.  When it returns
    [True] all four were saved. *)
Theorem generate_all_assets_saves_prefix d :
  exists written,
    files (generate_all_assets d).1 = files d ++ written /\
    written.*1 `prefix_of` asset_paths /\
    ((generate_all_assets d).2 = Ok true -> written.*1 = asset_paths).
Proof.
  destruct (generate_all_assets_order d) as (written & E & P & C).
  exists written. split; [exact E|]. split; [exact P|].
  intros Ht. exact (C true Ht eq_refl).
Qed.

(** X19. On a console that cannot encode the characters beyond ASCII,
    [generate_all_assets] prints its four header lines and then raises:
    the first text in the [try] block cannot be printed, and neither can
    the error message of the [except] block, whose exception leaves the
    function.  No image is made and no file saved. *)
Theorem generate_all_assets_raises_from_handler d e :
  (forall d' o, write_error d' o = if encodable o then None else Some e) ->
  exists d',
    generate_all_assets d = (d', Raise e) /\
    files d' = files d /\
    length (console d') = (length (console d) + 4)%nat.
Proof.
  intros Hw. unfold generate_all_assets.
  generalize (create_app_icon 1024) (create_adaptive_icon 1024)
             (create_splash_screen 1284 2778).
  intros mk_icon mk_adaptive mk_splash.
  do 4 match goal with
       | |- context [bindIO (print ?t) ?k ?dd] =>
           rewrite (bindIO_ok (print t) k dd _ _
                      (print_ok t dd (eq_trans (Hw dd (Printed t)) eq_refl)))
       end.
  unfold try_exceptIO.
  do 2 match goal with
       | |- context [bindIO (print ?t) ?k ?dd] =>
           rewrite (bindIO_raise (print t) k dd _ _
                      (print_raise t dd e (eq_trans (Hw dd (Printed t)) eq_refl)))
       end.
  eexists. split; [reflexivity|]. split; [reflexivity|].
  rewrite !console_written, !length_app. cbn [length]. lia.
Qed.

End Assets.

(** ** The further properties at concrete inputs *)

Lemma draw_hline_size c x0 x1 y color w h :
  has_size w h c -> has_size w h (draw_hline c x0 x1 y color).
Proof.
  intros (L & R & B). unfold draw_hline. destruct (y <? 0); [exact (conj L (conj R B))|].
  split; [|split; [|exact B]].
  - rewrite length_alter. exact L.
  - rewrite Forall_lookup in *. intros j row Hj.
    destruct (decide (j = Z.to_nat y)) as [->|Hne].
    + rewrite list_lookup_alter_eq in Hj.
      destruct (c !! Z.to_nat y) as [row0|] eqn:E; [|discriminate].
      injection Hj as <-. unfold fill_span. rewrite length_imap. exact (R _ _ E).
    + rewrite list_lookup_alter_ne in Hj by congruence. exact (R _ _ Hj).
Qed.

Lemma anchor_world_keeps_size : @text_keeps_size anchor_world.
Proof.
  intros c xy s f ink c' w h E Hs. cbn in E. unfold anchor_text in E.
  destruct s; [discriminate|]. injection E as <-. apply draw_hline_size, Hs.
Qed.

Lemma open_system_prints : @prints_succeed open_system.
Proof. intros d o. reflexivity. Qed.

Lemma open_system_memory w h : @memory_for open_system w h.
Proof. intros d. reflexivity. Qed.

Lemma open_system_saves : @saves_succeed open_system.
Proof. intros d path img. reflexivity. Qed.

Lemma blind_world_cannot_render s f : @cannot_render blind_world s f.
Proof. left. exists OSError. reflexivity. Qed.

Lemma gradient_pixels_near_exact_witness :
  (0 < 1 /\ 0 < 49 <= 2 ^ 40) /\
  pixel (create_gradient_background 1 49 "#000000" "#310000" (blank 1 49 (9, 9, 9))).1 0 1
  = Some (0, 0, 0) /\
  exact_lerp (get Red (0, 0, 0)) (get Red (49, 0, 0)) (Z.of_nat 1) 49 - 1
  <= get Red (0, 0, 0)
  <= exact_lerp (get Red (0, 0, 0)) (get Red (49, 0, 0)) (Z.of_nat 1) 49.
Proof.
  assert (Hh : 0 < 49 <= 2 ^ 40) by (split; [lia | apply Z.leb_le; reflexivity]).
  assert (Hp : pixel (create_gradient_background 1 49 "#000000" "#310000"
                        (blank 1 49 (9, 9, 9))).1 0 1 = Some (0, 0, 0))
    by (vm_compute; reflexivity).
  split; [split; [lia | exact Hh]|]. split; [exact Hp|].
  apply (gradient_pixels_near_exact 1 49 "#000000" "#310000" (0, 0, 0) (49, 0, 0)
           (blank 1 49 (9, 9, 9)) 0 1 (0, 0, 0) Red);
    [lia | exact Hh | reflexivity | reflexivity | apply blank_has_size; lia | exact Hp].
Defined.


Lemma gradient_width_beyond_doubles_witness :
  hex_to_rgb WHITE = Ok (255, 255, 255) /\ hex_to_rgb DARK_BLUE = Ok (30, 91, 184) /\
  0 < 1 /\ Binary64.overflow_bound <= Z.abs (2 ^ 1024) /\
  create_gradient_background (2 ^ 1024) 1 WHITE DARK_BLUE (blank 3 2 (9, 9, 9))
  = (blank 3 2 (9, 9, 9), Raise ValueError).
Proof.
  assert (Hw : Binary64.overflow_bound <= Z.abs (2 ^ 1024))
    by (apply Z.leb_le; vm_compute; reflexivity).
  split; [reflexivity|]. split; [reflexivity|]. split; [lia|]. split; [exact Hw|].
  apply (gradient_width_beyond_doubles_raises (2 ^ 1024) 1 WHITE DARK_BLUE
           (255, 255, 255) (30, 91, 184) (blank 3 2 (9, 9, 9)));
    [reflexivity | reflexivity | lia | exact Hw].
Defined.

Lemma gradient_frame_witness :
  0 <= 1 < 2 ^ 31 /\ 2 <= Binary64.overflow_bound /\
  has_size 3 2 (blank 3 2 (9, 9, 9)) /\
  pixel (blank 3 2 (9, 9, 9)) 1 0 = Some (9, 9, 9) /\
  pixel (create_gradient_background 1 2 WHITE DARK_BLUE (blank 3 2 (9, 9, 9))).1 1 0
  = Some (if (Z.of_nat 0 <? 2) && (Z.of_nat 1 <=? 1)
          then row_color (255, 255, 255) (30, 91, 184) (Z.of_nat 0) 2
          else (9, 9, 9)).
Proof.
  assert (Hh : 2 <= Binary64.overflow_bound)
    by (pose proof (image_size_in_range 2 ltac:(lia)); lia).
  split; [lia|]. split; [exact Hh|]. split; [apply blank_has_size; lia|].
  split; [reflexivity|].
  apply (gradient_frame 1 2 WHITE DARK_BLUE (255, 255, 255) (30, 91, 184) 3 2
           (blank 3 2 (9, 9, 9)) 1 0 (9, 9, 9));
    [lia | exact Hh | reflexivity | reflexivity | apply blank_has_size; lia | reflexivity].
Defined.

Lemma gradient_keeps_dimensions_witness :
  has_size 3 2 (blank 3 2 (9, 9, 9)) /\
  has_size 3 2 (create_gradient_background 7 (-1) "no color" DARK_BLUE
                  (blank 3 2 (9, 9, 9))).1.
Proof.
  split; [apply blank_has_size; lia|].
  apply (gradient_keeps_dimensions 7 (-1) "no color" DARK_BLUE 3 2 (blank 3 2 (9, 9, 9))).
  apply blank_has_size; lia.
Defined.

Lemma hex_to_rgb_ignores_extra_witness :
  byte_of "1" "E" = Some 30 /\ byte_of "5" "B" = Some 91 /\ byte_of "b" "8" = Some 184 /\
  hex_to_rgb "##1E5Bb8ff" = Ok (30, 91, 184).
Proof.
  split; [reflexivity|]. split; [reflexivity|]. split; [reflexivity|].
  apply (hex_to_rgb_ignores_extra "1" "E" "5" "B" "b" "8" 30 91 184 2 "ff"); reflexivity.
Defined.

Lemma hex_to_rgb_short_raises_witness :
  (String.length (lstrip "#" "#FFF") <= 4)%nat /\ hex_to_rgb "#FFF" = Raise ValueError.
Proof.
  assert (Hl : (String.length (lstrip "#" "#FFF") <= 4)%nat) by (vm_compute; lia).
  split; [exact Hl|]. apply (hex_to_rgb_short_raises "#FFF" Hl).
Defined.



Lemma create_app_icon_returns_witness :
  0 <= 40 < 2 ^ 31 /\ @prints_succeed open_system /\ @memory_for open_system 40 40 /\
  exists icon d',
    @create_app_icon anchor_world open_system 40 fresh_world = (d', Ok icon) /\
    files d' = files fresh_world.
Proof.
  split; [lia|]. split; [exact open_system_prints|].
  split; [exact (open_system_memory 40 40)|].
  apply (@create_app_icon_returns anchor_world open_system 40 fresh_world);
    [lia | exact open_system_prints | exact (open_system_memory 40 40)].
Defined.

Lemma app_icon_without_labels_witness :
  0 <= 3 < 2 ^ 31 /\ @prints_succeed open_system /\ @memory_for open_system 3 3 /\
  (forall s f, @cannot_render blind_world s f) /\
  (@create_app_icon blind_world open_system 3 fresh_world).2
  = Ok (create_gradient_background 3 3 LIGHT_BLUE DARK_BLUE
          (blank (Z.to_nat 3) (Z.to_nat 3) (46, 124, 238))).1.
Proof.
  split; [lia|]. split; [exact open_system_prints|].
  split; [exact (open_system_memory 3 3)|]. split; [exact blind_world_cannot_render|].
  apply (@app_icon_without_labels_is_gradient blind_world open_system 3 fresh_world);
    [lia | exact open_system_prints | exact (open_system_memory 3 3)
    | exact blind_world_cannot_render].
Defined.

Lemma app_icon_has_requested_size_witness :
  @text_keeps_size anchor_world /\
  exists d' icon,
    @create_app_icon anchor_world open_system 2 fresh_world = (d', Ok icon) /\
    has_size (Z.to_nat 2) (Z.to_nat 2) icon.
Proof.
  split; [exact anchor_world_keeps_size|].
  destruct (@app_icon_ok anchor_world open_system 2 fresh_world ltac:(lia)
              open_system_prints (open_system_memory 2 2)) as (icon & d' & E & _).
  exists d', icon. split; [exact E|].
  apply (@app_icon_has_requested_size anchor_world open_system 2 fresh_world d' icon
           anchor_world_keeps_size E).
Defined.

Lemma adaptive_icon_returns_sized_witness :
  0 <= 40 < 2 ^ 31 /\ @prints_succeed open_system /\ @memory_for open_system 40 40 /\
  @text_keeps_size anchor_world /\
  exists icon d',
    @create_adaptive_icon anchor_world open_system 40 fresh_world = (d', Ok icon) /\
    files d' = files fresh_world /\
    has_size (Z.to_nat 40) (Z.to_nat 40) icon.
Proof.
  split; [lia|]. split; [exact open_system_prints|].
  split; [exact (open_system_memory 40 40)|]. split; [exact anchor_world_keeps_size|].
  destruct (@adaptive_icon_returns_sized anchor_world open_system 40 fresh_world
              ltac:(lia) open_system_prints (open_system_memory 40 40))
    as (icon & d' & E & F & Hsize).
  exists icon, d'. split; [exact E|]. split; [exact F|].
  exact (Hsize anchor_world_keeps_size).
Defined.

Lemma splash_screen_returns_sized_witness :
  (0 <= 30 < 2 ^ 31 /\ 0 <= 50 < 2 ^ 31) /\
  @prints_succeed open_system /\ @memory_for open_system 30 50 /\
  @text_keeps_size anchor_world /\
  exists splash d',
    @create_splash_screen anchor_world open_system 30 50 fresh_world = (d', Ok splash) /\
    files d' = files fresh_world /\
    has_size (Z.to_nat 30) (Z.to_nat 50) splash.
Proof.
  split; [lia|]. split; [exact open_system_prints|].
  split; [exact (open_system_memory 30 50)|]. split; [exact anchor_world_keeps_size|].
  destruct (@splash_screen_returns_sized anchor_world open_system 30 50 fresh_world
              ltac:(lia) ltac:(lia) open_system_prints (open_system_memory 30 50))
    as (splash & d' & E & F & Hsize).
  exists splash, d'. split; [exact E|]. split; [exact F|].
  exact (Hsize anchor_world_keeps_size).
Defined.

Lemma generate_all_assets_succeeds_witness :
  @prints_succeed open_system /\ @memory_for open_system 1024 1024 /\
  @memory_for open_system 1284 2778 /\ @saves_succeed open_system /\
  (forall img, exists small, @resize open_system img (48, 48) = Ok small) /\
  exists icon adaptive splash favicon d',
    @generate_all_assets anchor_world open_system fresh_world = (d', Ok true) /\
    files d' = files fresh_world
               ++ [ ("assets/icon.png", icon); ("assets/adaptive-icon.png", adaptive);
                    ("assets/splash.png", splash); ("assets/favicon.png", favicon) ] /\
    @resize open_system icon (48, 48) = Ok favicon /\
    (exists d0 d1, @create_app_icon anchor_world open_system 1024 d0 = (d1, Ok icon)) /\
    (exists d0 d1,
       @create_adaptive_icon anchor_world open_system 1024 d0 = (d1, Ok adaptive)) /\
    (exists d0 d1,
       @create_splash_screen anchor_world open_system 1284 2778 d0 = (d1, Ok splash)).
Proof.
  assert (Hr : forall img, exists small, @resize open_system img (48, 48) = Ok small)
    by (intros img; eexists; reflexivity).
  split; [exact open_system_prints|]. split; [exact (open_system_memory 1024 1024)|].
  split; [exact (open_system_memory 1284 2778)|]. split; [exact open_system_saves|].
  split; [exact Hr|].
  apply (@generate_all_assets_succeeds anchor_world open_system fresh_world
           open_system_prints (open_system_memory 1024 1024)
           (open_system_memory 1284 2778) open_system_saves Hr).
Defined.

Lemma generate_all_assets_raises_from_handler_witness :
  (forall d' o, @write_error ascii_system d' o
                = if encodable o then None else Some UnicodeEncodeError) /\
  exists d',
    @generate_all_assets anchor_world ascii_system fresh_world
    = (d', Raise UnicodeEncodeError) /\
    files d' = files fresh_world /\
    length (console d') = (length (console fresh_world) + 4)%nat.
Proof.
  assert (Hw : forall d' o, @write_error ascii_system d' o
                            = if encodable o then None else Some UnicodeEncodeError)
    by (intros d' o; reflexivity).
  split; [exact Hw|].
  apply (@generate_all_assets_raises_from_handler anchor_world ascii_system fresh_world
           UnicodeEncodeError Hw).
Defined.
